(** * Downtime calendar of the year-one survey simulations

    A shallow embedding of [technical/downtime_check/the35down.py]:
    the year-one unscheduled downtime sampler
    ([UnscheduledDowntimeDataYearOne]) and the calendar builder
    ([new_downtimes]) with its overlap-removal loop.

    Times are modified Julian dates.  The source holds them in float64;
    here they are exact rationals ([Q]), so every comparison, maximum and
    difference below is the exact one.  The random generator of numpy is
    a parameter: a state type with the draws the source makes. *)

From Stdlib Require Import QArith Qminmax ZArith List Bool String.
From Stdlib Require Import Lia Lqa Permutation Sorted.
Import ListNotations.

Open Scope Q_scope.

(** ** Outcomes of a call *)

(** The exceptions the modelled statements can raise themselves: the
    [ValueError] of [np.min] on an empty array, and the [TypeError] of a
    [for] over [None]. *)
Inductive exn : Type :=
| ValueError
| TypeError.

Inductive outcome (A : Type) : Type :=
| Returned (a : A)
| Raised (e : exn).

Arguments Returned {A} a.
Arguments Raised {A} e.

(** ** Small numpy vocabulary *)

Definition Qltb (a b : Q) : bool := negb (Qle_bool b a).

(** [np.min]: [None] stands for the [ValueError] on a zero-size array. *)
Definition np_min (a : list Q) : option Q :=
  match a with
  | [] => None
  | x :: r => Some (fold_left Qmin r x)
  end.

(** [np.roll(a, 1)]: the last element comes first. *)
Definition np_roll1 {A : Type} (a : list A) : list A :=
  match a with
  | [] => []
  | x :: _ => last a x :: removelast a
  end.

(** [a[mask]] for a boolean mask, as [a[np.where(mask)]] selects. *)
Definition np_select {A : Type} (a : list A) (mask : list bool) : list A :=
  map fst (filter snd (combine a mask)).

(** ** The downtime array of [new_downtimes] *)

(** One record of the structured array with fields ["start"], ["end"]. *)
Record interval : Type := mkInterval { start : Q; end_ : Q }.

(** [downtimes.sort(order="start")]: by ["start"], ties by the remaining
    field ["end"]. *)
Definition interval_leb (a b : interval) : bool :=
  match start a ?= start b with
  | Lt => true
  | Eq => Qle_bool (end_ a) (end_ b)
  | Gt => false
  end.

Fixpoint insert_sorted (x : interval) (l : list interval) : list interval :=
  match l with
  | [] => [x]
  | y :: r => if interval_leb x y then x :: l else y :: insert_sorted x r
  end.

Fixpoint np_sort (l : list interval) : list interval :=
  match l with
  | [] => []
  | x :: r => insert_sorted x (np_sort r)
  end.

(** [downtimes["start"][1:] - downtimes["end"][0:-1]] *)
Definition diff (downtimes : list interval) : list Q :=
  map (fun p => fst p - snd p)
      (combine (map start (tl downtimes)) (map end_ (removelast downtimes))).

Definition set_end (dt : interval) (new_end : Q) : interval :=
  {| start := start dt; end_ := new_end |}.

(** The [for i, dt in enumerate(downtimes[0:-1])] pass, with the indices
    and the writes into the array that the source has.
    [write_end i new_end] is [downtimes[i]["end"] = new_end]; [pass_turn]
    is the body of the [for] at index [i], where [dt] is a view of record
    [i] of the array as it is by then. *)
Fixpoint write_end (i : nat) (new_end : Q) (d : list interval) : list interval :=
  match d, i with
  | [], _ => []
  | x :: r, O => set_end x new_end :: r
  | x :: r, S i' => x :: write_end i' new_end r
  end.

Definition pass_turn (downtimes : list interval) (i : nat) : list interval :=
  match nth_error downtimes i, nth_error downtimes (S i) with
  | Some dt, Some nxt =>
      if Qltb (start nxt) (end_ dt) then
        let new_end := Qmax (end_ dt) (end_ nxt) in
        write_end (S i) new_end (write_end i new_end downtimes)
      else downtimes
  | _, _ => downtimes
  end.

Definition pass_in_place (downtimes : list interval) : list interval :=
  fold_left pass_turn (seq 0 (List.length downtimes - 1)) downtimes.

(** The same pass read record by record ([pass_in_place_extend] below):
    [dt] is record [i] with the end written while record [i-1] was
    visited, [rest] is [downtimes[i+1:]]. *)
Fixpoint extend_from (dt : interval) (rest : list interval) : list interval :=
  match rest with
  | [] => [dt]
  | nxt :: rest' =>
      if Qltb (start nxt) (end_ dt) then
        let new_end := Qmax (end_ dt) (end_ nxt) in
        set_end dt new_end :: extend_from (set_end nxt new_end) rest'
      else dt :: extend_from nxt rest'
  end.

Definition extend_pass (downtimes : list interval) : list interval :=
  match downtimes with
  | [] => []
  | dt :: rest => extend_from dt rest
  end.

(** [downtimes["end"] - np.roll(downtimes["end"], 1) != 0] *)
Definition good (downtimes : list interval) : list bool :=
  let ends := map end_ downtimes in
  map (fun p => negb (Qeq_bool (fst p - snd p) 0)) (combine ends (np_roll1 ends)).

(** One turn of the [while] body: the pass, then [downtimes[good]]. *)
Definition loop_body (downtimes : list interval) : list interval :=
  let extended := pass_in_place downtimes in
  np_select extended (good extended).

(** The [while np.min(diff) < 0] loop, as a relation: [while_run d k r]
    says that the loop entered with array [d] ends after [k] turns with
    outcome [r]. *)
Inductive while_run : list interval -> nat -> outcome (list interval) -> Prop :=
| run_raise : forall d,
    np_min (diff d) = None -> while_run d 0%nat (Raised ValueError)
| run_exit : forall d m,
    np_min (diff d) = Some m -> Qltb m 0 = false -> while_run d 0%nat (Returned d)
| run_turn : forall d m k r,
    np_min (diff d) = Some m -> Qltb m 0 = true ->
    while_run (loop_body d) k r -> while_run d (S k) r.

(** The same loop as a function; [None] only when [fuel] turns did not
    reach the end of the loop. *)
Fixpoint while_loop (fuel : nat) (d : list interval) : option (outcome (list interval)) :=
  match np_min (diff d) with
  | None => Some (Raised ValueError)
  | Some m =>
      if Qltb m 0 then
        match fuel with
        | O => None
        | S fuel' => while_loop fuel' (loop_body d)
        end
      else Some (Returned d)
  end.

(** Lines 274-294 of [new_downtimes]: build the array from the collected
    starts and ends, sort, remove overlaps. *)
Definition merge_downtimes (down : list interval) : option (outcome (list interval)) :=
  while_loop (List.length down) (np_sort down).

(** The time a list of intervals covers: [t] is covered when it lies in
    [start, end) of one of them. *)
Definition inside (iv : interval) (t : Q) : Prop := start iv <= t /\ t < end_ iv.

Definition covered (d : list interval) (t : Q) : Prop :=
  exists iv, In iv d /\ inside iv t.

Definition valid (iv : interval) : Prop := start iv < end_ iv.

(** Adjacent records do not overlap. *)
Fixpoint no_overlap (d : list interval) : Prop :=
  match d with
  | a :: (b :: _) as r => end_ a <= start b /\ no_overlap r
  | _ => True
  end.

Fixpoint sorted_by_start (d : list interval) : Prop :=
  match d with
  | a :: (b :: _) as r => start a <= start b /\ sorted_by_start r
  | _ => True
  end.

(** [downtimes[good]] read record by record: a record stays when its end
    differs from the end before it ([prev]); for the first record [prev]
    is the end of the last one. *)
Fixpoint keep_changed (prev : Q) (d : list interval) : list interval :=
  match d with
  | [] => []
  | x :: r =>
      if Qeq_bool (end_ x - prev) 0 then keep_changed (end_ x) r
      else x :: keep_changed (end_ x) r
  end.

(** The end of the last record after the pass. *)
Fixpoint final_end (dt : interval) (rest : list interval) : Q :=
  match rest with
  | [] => end_ dt
  | nxt :: rest' =>
      if Qltb (start nxt) (end_ dt)
      then final_end (set_end nxt (Qmax (end_ dt) (end_ nxt))) rest'
      else final_end nxt rest'
  end.

(** Two adjacent records with the same end. *)
Fixpoint has_repeat (d : list interval) : Prop :=
  match d with
  | a :: (b :: _) as r => end_ b == end_ a \/ has_repeat r
  | _ => False
  end.

Definition le_start (a b : interval) : Prop := start a <= start b.

(** ** The random generator

    [np.random.default_rng(seed)] and the three draws of [make_data].
    [random] is the next double in [0, 1); [uniform(low, high)] is numpy's
    [low + (high - low) * next_double]; [gumbel] is left abstract.
    numpy accepts only seeds that are not negative; [default_rng] is a
    function on all of [Z] and nothing below depends on its values. *)
Record Generator : Type := mkGenerator {
  bitgen : Type;
  default_rng : Z -> bitgen;
  next_double : bitgen -> Q * bitgen;
  gumbel : Q -> Q -> bitgen -> Q * bitgen
}.

Definition random (R : Generator) (g : bitgen R) : Q * bitgen R :=
  next_double R g.

Definition uniform (R : Generator) (low high : Q) (g : bitgen R) : Q * bitgen R :=
  let (u, g') := next_double R g in (low + (high - low) * u, g').

(** The draws of a generator are doubles of [0, 1). *)
Definition unit_draws (R : Generator) : Prop :=
  forall g, 0 <= fst (next_double R g) /\ fst (next_double R g) < 1.

(** ** [UnscheduledDowntimeDataYearOne] *)

(** The event dictionaries: keys ["P"], ["length"], ["level"]. *)
Record event_kind : Type := mkEventKind {
  ev_P : Q;
  ev_length : nat;
  ev_level : string
}.

Definition MINOR_EVENT : event_kind :=
  mkEventKind (137 # 10000) 1 "minor event".
Definition INTERMEDIATE_EVENT : event_kind :=
  mkEventKind (548 # 100000) 3 "intermediate event".
Definition MAJOR_EVENT : event_kind :=
  mkEventKind (137 # 100000) 7 "major event".
Definition CATASTROPHIC_EVENT : event_kind :=
  mkEventKind (274 # 1000000) 14 "catastrophic event".

(** One record of [self.downtime]: start, end (as mjd), activity. *)
Record downtime_rec : Type := mkDowntime {
  dt_start : Q;
  dt_end : Q;
  activity : string
}.

Definition end_of_start : nat := 380.

Definition Qnat (n : nat) : Q := inject_Z (Z.of_nat n).

(** [a[lo:hi] = 1] on the [night_counted] array (slices clip). *)
Definition set_slice (lo hi : nat) (a : list bool) : list bool :=
  map (fun p => if (lo <=? fst p)%nat && (fst p <? hi)%nat then true else snd p)
      (combine (seq 0 (List.length a)) a).

(** The local state of [make_data]: the generator, [night_counted], and
    the [starts], [ends], [acts] lists (always appended together). *)
Record sampler_state (R : Generator) : Type := mkState {
  rng : bitgen R;
  night_counted : list bool;
  recorded : list downtime_rec
}.

Arguments mkState {R} _ _ _.
Arguments rng {R} _.
Arguments night_counted {R} _.
Arguments recorded {R} _.

Definition nightly_threshold (night : nat) : Q :=
  (1 # 2) * (1 - Qnat night / Qnat (end_of_start + 45)).

(** Lines 179-182: the two clamps of the sampled duration, in hours. *)
Definition clamp_prob_time (hours_in_night prob_time : Q) : Q :=
  let prob_time := if Qle_bool hours_in_night prob_time then hours_in_night else prob_time in
  if Qle_bool prob_time 1 then 1 else prob_time.

(** Lines 176-193: the record of a year-one event, and the generator
    after its draws. *)
Definition year1_event (R : Generator) (sunset sunrise : Q) (g : bitgen R)
  : downtime_rec * bitgen R :=
  let hours_in_night := (sunrise - sunset) * 24 in
  let (drawn, g2) := gumbel R 1 6 g in
  let prob_time := clamp_prob_time hours_in_night drawn in
  let tmax := hours_in_night - prob_time in
  if Qle_bool tmax 0 then
    (mkDowntime sunset sunrise "Year1 Eng", g2)
  else
    let (offset, g3) := uniform R sunset (sunset + tmax / 24) g2 in
    (mkDowntime offset (offset + prob_time / 24) "Year1 Eng", g3).

(** Lines 171-195: a night before [end_of_start]. *)
Definition year1_night (R : Generator) (night : nat) (sunset sunrise prob : Q)
    (g : bitgen R) (counted : list bool) (acc : list downtime_rec)
  : sampler_state R :=
  if Qle_bool prob (nightly_threshold night) then
    let (ev, g') := year1_event R sunset sunrise g in
    mkState g' (set_slice night (S night) counted) (acc ++ [ev])
  else
    mkState g (set_slice night (S night) counted) acc.

(** The body shared by the four branches of lines 198-221. *)
Definition fire (k : event_kind) (night : nat) (sunset : Q)
    (counted : list bool) (acc : list downtime_rec)
  : list bool * list downtime_rec :=
  (set_slice night (night + ev_length k) counted,
   acc ++ [mkDowntime sunset (sunset + Qnat (ev_length k)) (ev_level k)]).

(** Lines 196-221: the standard unscheduled downtime of a later night. *)
Definition standard_night (night : nat) (sunset prob : Q)
    (counted : list bool) (acc : list downtime_rec)
  : list bool * list downtime_rec :=
  if Qltb prob (ev_P CATASTROPHIC_EVENT) then fire CATASTROPHIC_EVENT night sunset counted acc
  else if Qltb prob (ev_P MAJOR_EVENT) then fire MAJOR_EVENT night sunset counted acc
  else if Qltb prob (ev_P INTERMEDIATE_EVENT) then fire INTERMEDIATE_EVENT night sunset counted acc
  else if Qltb prob (ev_P MINOR_EVENT) then fire MINOR_EVENT night sunset counted acc
  else (counted, acc).

(** One turn of the loop over the nights, lines 165-221. *)
Definition night_body (R : Generator) (night : nat) (sunset sunrise : Q)
    (st : sampler_state R) : sampler_state R :=
  let (prob, g) := random R (rng st) in
  if nth night (night_counted st) false then
    mkState g (night_counted st) (recorded st)
  else if (night <? end_of_start)%nat then
    year1_night R night sunset sunrise prob g (night_counted st) (recorded st)
  else
    let (counted, acc) := standard_night night sunset prob (night_counted st) (recorded st) in
    mkState g counted acc.

(** [for night, (sunset, sunrise) in enumerate(zip(sunsets, sunrises))] *)
Fixpoint nights_loop (R : Generator) (night : nat) (windows : list (Q * Q))
    (st : sampler_state R) : sampler_state R :=
  match windows with
  | [] => st
  | (sunset, sunrise) :: rest =>
      nights_loop R (S night) rest (night_body R night sunset sunrise st)
  end.

(** The attributes of an instance.  [self_rng] is absent until
    [make_data] has run. *)
Record UnscheduledDowntimeDataYearOne (R : Generator) : Type := mkSelf {
  seed : Z;
  sunsets : list Q;
  sunrises : list Q;
  downtime : option (list downtime_rec);
  self_rng : option (bitgen R)
}.

Arguments mkSelf {R} _ _ _ _ _.
Arguments seed {R} _.
Arguments sunsets {R} _.
Arguments sunrises {R} _.
Arguments downtime {R} _.
Arguments self_rng {R} _.

Definition make_data {R : Generator} (self : UnscheduledDowntimeDataYearOne R)
  : UnscheduledDowntimeDataYearOne R :=
  let st0 := mkState (default_rng R (seed self))
                     (repeat false (List.length (sunsets self))) [] in
  let st := nights_loop R 0 (combine (sunsets self) (sunrises self)) st0 in
  mkSelf (seed self) (sunsets self) (sunrises self)
         (Some (recorded st)) (Some (rng st)).

(** [__init__]; it contains no [raise] and no check of its arguments. *)
Definition init (R : Generator) (sunsets sunrises : list Q) (seed : Z)
  : outcome (UnscheduledDowntimeDataYearOne R) :=
  Returned (make_data (mkSelf seed sunsets sunrises None None)).

(** [__call__] *)
Definition call {R : Generator} (self : UnscheduledDowntimeDataYearOne R)
  : option (list downtime_rec) :=
  downtime self.

(** ** [new_downtimes] *)

(** A row of [almanac.sunsets]; the almanac is given from outside. *)
Record almanac_row : Type := mkRow {
  night : Z;
  sunset : Q;
  sun_n12_setting : Q;
  sun_n18_setting : Q;
  sun_n18_rising : Q;
  sun_n12_rising : Q;
  sunrise : Q
}.

(** [np.where((night >= 0) & (night < 366))] *)
Definition year1_sunsets (almanac_sunsets : list almanac_row) : list almanac_row :=
  filter (fun r => (0 <=? night r)%Z && (night r <? 366)%Z) almanac_sunsets.

Definition mjd_interval (dt : downtime_rec) : interval :=
  mkInterval (dt_start dt) (dt_end dt).

(** The three sources in the order the source appends them. *)
Definition collect (unscheduled regular sched : list downtime_rec) : list interval :=
  map mjd_interval unscheduled ++ map mjd_interval regular ++ map mjd_interval sched.

(** The windows handed to the year-one sampler, lines 246-252. *)
Definition year1_windows (almanac_sunsets : list almanac_row) : list Q * list Q :=
  let rows := year1_sunsets almanac_sunsets in
  (map sun_n12_setting rows, map sun_n12_rising rows).

(** [new_downtimes]: [regular] and [sched] are what the two site models
    return for [mjd_start]; the sampler runs with its default seed 43. *)
Definition new_downtimes (R : Generator) (almanac_sunsets : list almanac_row)
    (regular sched : list downtime_rec) : option (outcome (list interval)) :=
  let (sunset, sunrise) := year1_windows almanac_sunsets in
  match init R sunset sunrise 43 with
  | Raised e => Some (Raised e)
  | Returned unsched_downtime =>
      match call unsched_downtime with
      | None => Some (Raised TypeError)
      | Some unscheduled_downtimes =>
          merge_downtimes (collect unscheduled_downtimes regular sched)
      end
  end.

(** ** Generators used in examples *)

(** A tape of prepared draws, read in order; [gumbel] reads one value and
    returns it through [loc + scale * x]. *)
Definition tape_head (t : list Q) : Q * list Q :=
  match t with
  | [] => (0, [])
  | x :: r => (x, r)
  end.

Definition tape_generator (tape : Z -> list Q) : Generator :=
  mkGenerator (list Q) tape tape_head
    (fun loc scale t => let (x, r) := tape_head t in (loc + scale * x, r)).

(** A generator that satisfies [unit_draws] in every state: it reads
    bits and turns each into a double. *)
Definition coin_double (t : list bool) : Q * list bool :=
  match t with
  | [] => (1 # 4, [])
  | true :: r => (3 # 4, r)
  | false :: r => (1 # 8, r)
  end.

Definition coin_gumbel (loc scale : Q) (t : list bool) : Q * list bool :=
  match t with
  | [] => (loc, [])
  | true :: r => (loc + scale * 2, r)
  | false :: r => (loc - scale * (1 # 2), r)
  end.

Definition coin_generator : Generator :=
  mkGenerator (list bool) (fun seed => [Z.odd seed; false; true; false])
              coin_double coin_gumbel.

(** An almanac with one row per night, nights [0 .. n-1]; night [i] runs
    from [i + 0.9] to [i + 1.3] at the twelve degree twilight. *)
Definition almanac_of_nights (n : nat) : list almanac_row :=
  map (fun i => mkRow (Z.of_nat i)
                  (Qnat i + (8 # 10)) (Qnat i + (9 # 10)) (Qnat i + 1)
                  (Qnat i + (12 # 10)) (Qnat i + (13 # 10)) (Qnat i + (14 # 10)))
      (seq 0 n).

(** A record of year-one engineering time. *)
Definition year1_eng (rec : downtime_rec) : Prop := activity rec = "Year1 Eng"%string.

(** ** The loop as the specification words it

    The turns are capped at the number of intervals; going over the cap
    fails with [MergeNonConvergence]. *)
Inductive capped_outcome : Type :=
| Ended (r : outcome (list interval))
| MergeNonConvergence.

Fixpoint capped_loop (cap : nat) (d : list interval) : capped_outcome :=
  match np_min (diff d) with
  | None => Ended (Raised ValueError)
  | Some m =>
      if Qltb m 0 then
        match cap with
        | O => MergeNonConvergence
        | S cap' => capped_loop cap' (loop_body d)
        end
      else Ended (Returned d)
  end.

Definition merge_capped (down : list interval) : capped_outcome :=
  capped_loop (List.length down) (np_sort down).

(** ** The severities as the specification words them

    The four severities in the order in which they are tried, and the
    first of them whose probability exceeds the draw [p]. *)
Definition severities : list event_kind :=
  [CATASTROPHIC_EVENT; MAJOR_EVENT; INTERMEDIATE_EVENT; MINOR_EVENT].

Definition first_firing (p : Q) : option event_kind :=
  find (fun k => Qltb p (ev_P k)) severities.

Definition iv (s e : Z) : interval := mkInterval (inject_Z s) (inject_Z e).

(** ** The rest of [UnscheduledDowntimeDataYearOne] *)

(** [a.searchsorted(v, side="right")] on an array in ascending order:
    the index [i] with [a[i-1] <= v < a[i]], which is the number of
    leading entries that are [<= v]. *)
Fixpoint searchsorted_right (a : list Q) (v : Q) : nat :=
  match a with
  | [] => 0%nat
  | x :: r => if Qle_bool x v then S (searchsorted_right r v) else 0%nat
  end.

(** The first component of what [_downtime_status] returns: a record,
    [None], or the [IndexError] of [self.downtime[next_end]]. *)
Inductive current_status : Type :=
| Current (rec : downtime_rec)
| NoCurrent
| IndexError.

(** [_downtime_status]: [(current, future)]. *)
Definition downtime_status (d : list downtime_rec) (time : Q)
  : current_status * list downtime_rec :=
  let next_start := searchsorted_right (map dt_start d) time in
  let next_end := searchsorted_right (map dt_end d) time in
  let current :=
    if (next_end <? next_start)%nat then
      match nth_error d next_end with
      | Some rec => Current rec
      | None => IndexError
      end
    else NoCurrent in
  (current, skipn next_start d).

(** ** [tma_movement] and [rotator_movement] *)

(** The dictionary [tma]; one field per key. *)
Record tma_dict : Type := mkTma {
  azimuth_maxspeed : Q;
  azimuth_accel : Q;
  azimuth_jerk : Q;
  altitude_maxspeed : Q;
  altitude_accel : Q;
  altitude_jerk : Q;
  settle_time : Q
}.

(** The dictionary [rot]. *)
Record rot_dict : Type := mkRot {
  maxspeed : Q;
  accel : Q;
  jerk : Q
}.

(** Lines 28-30 and 64-66: the percentage after the cap, and what is
    printed. *)
Definition cap_percent (percent : Q) : Q * list string :=
  if Qltb 125 percent
  then (125, ["Cannot exceed 125 percent, by requirements."%string])
  else (percent, []).

(** [tma_movement]; [np.min] and [np.max] of a two-element list are
    [Qmin] and [Qmax].  The second component is the printed output. *)
Definition tma_movement (percent : Q) : tma_dict * list string :=
  let (percent, printed) := cap_percent percent in
  let scale := percent / 100 in
  (mkTma (Qmin (10 * scale) 7) (10 * scale) (Qmax 1 (40 * scale))
         (5 * scale) (5 * scale) (Qmax 1 (20 * scale)) 3,
   printed).

Definition rotator_movement (percent : Q) : rot_dict * list string :=
  let (percent, printed) := cap_percent percent in
  (mkRot ((35 # 10) * percent / 100) (1 * percent / 100) (4 * percent / 100),
   printed).

(** ** [baseline/roman_survey.py] *)

Definition np_max (a : list Q) : option Q :=
  match a with
  | [] => None
  | x :: r => Some (fold_left Qmax r x)
  end.

(** [InSeasonBasisFunction.check_feasibility]: the loop over
    [self.seasons], with [result] as it stands; [np.min] and [np.max] of
    an empty [season_range] raise. *)
Fixpoint in_season_loop (seasons : list (list Q)) (mjd : Q) (result : bool)
  : outcome bool :=
  match seasons with
  | [] => Returned result
  | season_range :: rest =>
      match np_min season_range, np_max season_range with
      | Some lo, Some hi =>
          in_season_loop rest mjd
            (if Qle_bool lo mjd && Qle_bool mjd hi then true else result)
      | _, _ => Raised ValueError
      end
  end.

Definition check_feasibility (seasons : list (list Q)) (mjd : Q) : outcome bool :=
  in_season_loop seasons mjd false.

(** [roman_info] *)
Record roman_dict : Type := mkRoman {
  RA : Q;
  dec : Q;
  seasons_on : list (list Q);
  seasons_off : list (list Q)
}.

Definition observing_season_mid_mjds : list Q :=
  [619473 # 10; 623188 # 10; 626703 # 10; 630672 # 10; 633814 # 10; 637732 # 10].

(** The [for i in range(len(seasons_on) - 1)] loop; the indices it uses
    are all within the lists. *)
Definition seasons_between (on : list (list Q)) : list (list Q) :=
  map (fun i => [nth 1 (nth i on []) 0 + 1; nth 0 (nth (S i) on []) 0 - 1])
      (seq 0 (List.length on - 1)).

Definition roman_info : roman_dict :=
  let on := map (fun val => [val - 32; val + 32]) observing_season_mid_mjds in
  mkRoman (268708 # 1000) (- (28975 # 1000)) on (seasons_between on).

(** * Properties *)

(** ** Comparisons *)

Lemma Qltb_true (a b : Q) : Qltb a b = true <-> a < b.
Proof.
  unfold Qltb. rewrite negb_true_iff. split; intro H.
  - apply Qnot_le_lt. intro Hle. apply Qle_bool_iff in Hle. congruence.
  - destruct (Qle_bool b a) eqn:E; [|reflexivity].
    apply Qle_bool_iff in E. exfalso; lra.
Qed.

Lemma Qltb_false (a b : Q) : Qltb a b = false <-> b <= a.
Proof.
  unfold Qltb. rewrite negb_false_iff. apply Qle_bool_iff.
Qed.

Lemma Qle_bool_false (a b : Q) : Qle_bool a b = false <-> b < a.
Proof.
  split; intro H.
  - apply Qnot_le_lt. intro Hle. apply Qle_bool_iff in Hle. congruence.
  - destruct (Qle_bool a b) eqn:E; [|reflexivity].
    apply Qle_bool_iff in E. exfalso; lra.
Qed.

Lemma Qeq_bool_diff (a b : Q) : Qeq_bool (a - b) 0 = true <-> a == b.
Proof.
  rewrite Qeq_bool_iff. split; intro H; lra.
Qed.

Lemma Qmax_cases (a b : Q) :
  (a < b /\ Qmax a b == b) \/ (b <= a /\ Qmax a b == a).
Proof. apply Q.max_spec. Qed.

Lemma Qmax_ge_l (a b : Q) : a <= Qmax a b.
Proof. destruct (Qmax_cases a b) as [[? ?]|[? ?]]; lra. Qed.

Lemma Qmax_ge_r (a b : Q) : b <= Qmax a b.
Proof. destruct (Qmax_cases a b) as [[? ?]|[? ?]]; lra. Qed.

(** ** [np.min] *)

Lemma fold_Qmin_le (l : list Q) (x : Q) :
  fold_left Qmin l x <= x /\ Forall (fun y => fold_left Qmin l x <= y) l.
Proof.
  revert x. induction l as [|a l IH]; intro x; simpl.
  - split; [lra | constructor].
  - destruct (IH (Qmin x a)) as [H1 H2].
    pose proof (Q.le_min_l x a). pose proof (Q.le_min_r x a).
    split; [lra|]. constructor; [lra | exact H2].
Qed.

Lemma fold_Qmin_In (l : list Q) (x : Q) :
  fold_left Qmin l x = x \/ In (fold_left Qmin l x) l.
Proof.
  revert x. induction l as [|a l IH]; intro x; simpl.
  - left; reflexivity.
  - destruct (IH (Qmin x a)) as [H|H].
    + rewrite H. unfold Qmin, GenericMinMax.gmin.
      destruct (x ?= a); auto.
    + right; right; exact H.
Qed.

Lemma np_min_le (l : list Q) (m : Q) :
  np_min l = Some m -> Forall (fun y => m <= y) l.
Proof.
  destruct l as [|x r]; simpl; intro H; [discriminate|].
  injection H as <-. destruct (fold_Qmin_le r x). constructor; assumption.
Qed.

Lemma np_min_In (l : list Q) (m : Q) : np_min l = Some m -> In m l.
Proof.
  destruct l as [|x r]; simpl; intro H; [discriminate|].
  injection H as <-. destruct (fold_Qmin_In r x) as [E|E].
  - left; symmetry; exact E.
  - right; exact E.
Qed.

(** ** The difference array *)

Lemma diff_cons2 (a b : interval) (r : list interval) :
  diff (a :: b :: r) = (start b - end_ a) :: diff (b :: r).
Proof. reflexivity. Qed.

Lemma no_overlap_diff (d : list interval) :
  no_overlap d <-> Forall (fun x => 0 <= x) (diff d).
Proof.
  induction d as [|a [|b r] IH].
  - simpl; split; [auto | intros _; constructor].
  - simpl; split; [auto | intros _; constructor].
  - rewrite diff_cons2. change (no_overlap (a :: b :: r))
      with (end_ a <= start b /\ no_overlap (b :: r)).
    rewrite IH. split.
    + intros [H1 H2]. constructor; [lra | exact H2].
    + intro H. inversion H; subst. split; [lra | assumption].
Qed.

(** ** Selecting the records whose end changed *)

Lemma removelast_cons2 {A : Type} (a b : A) (l : list A) :
  removelast (a :: b :: l) = a :: removelast (b :: l).
Proof. reflexivity. Qed.

Lemma last_cons2 {A : Type} (a b : A) (l : list A) (x : A) :
  last (a :: b :: l) x = last (b :: l) x.
Proof. reflexivity. Qed.

Lemma last_default {A : Type} (l : list A) (x y : A) :
  l <> [] -> last l x = last l y.
Proof.
  induction l as [|a [|b r] IH]; intro H.
  - congruence.
  - reflexivity.
  - rewrite !last_cons2. apply IH. discriminate.
Qed.

Lemma select_shift (d : list interval) (prev : Q) :
  np_select d
    (map (fun p => negb (Qeq_bool (fst p - snd p) 0))
         (combine (map end_ d) (prev :: removelast (map end_ d))))
  = keep_changed prev d.
Proof.
  revert prev. induction d as [|x [|y r] IH]; intro prev.
  - reflexivity.
  - simpl. unfold np_select. simpl.
    destruct (Qeq_bool (end_ x - prev) 0); reflexivity.
  - change (map end_ (x :: y :: r)) with (end_ x :: map end_ (y :: r)).
    change (map end_ (y :: r)) with (end_ y :: map end_ r) at 2.
    rewrite removelast_cons2.
    change (end_ y :: map end_ r) with (map end_ (y :: r)).
    specialize (IH (end_ x)).
    unfold np_select in *. cbn [combine map filter fst snd].
    cbn [keep_changed].
    destruct (Qeq_bool (end_ x - prev) 0); cbn [negb map fst].
    + exact IH.
    + f_equal. exact IH.
Qed.

Lemma last_map_end (d : list interval) (x : interval) :
  last (map end_ d) (end_ x) = end_ (last d x).
Proof.
  induction d as [|a [|b r] IH]; try reflexivity.
  change (map end_ (a :: b :: r)) with (end_ a :: end_ b :: map end_ r).
  rewrite !last_cons2. exact IH.
Qed.

(** [downtimes[good]] is [keep_changed], started from the last end. *)
Lemma select_good (x : interval) (r : list interval) :
  np_select (x :: r) (good (x :: r)) = keep_changed (end_ (last (x :: r) x)) (x :: r).
Proof.
  unfold good. cbv zeta.
  change (np_roll1 (map end_ (x :: r)))
    with (last (map end_ (x :: r)) (end_ x) :: removelast (map end_ (x :: r))).
  rewrite select_shift. rewrite last_map_end. reflexivity.
Qed.

Lemma keep_changed_In (d : list interval) (prev : Q) (y : interval) :
  In y (keep_changed prev d) -> In y d.
Proof.
  revert prev. induction d as [|x r IH]; intro prev; simpl; [tauto|].
  destruct (Qeq_bool (end_ x - prev) 0); simpl; intro H.
  - right. eapply IH; eauto.
  - destruct H as [H|H]; [left; exact H | right; eapply IH; eauto].
Qed.

Lemma keep_changed_length (d : list interval) (prev : Q) :
  (List.length (keep_changed prev d) <= List.length d)%nat.
Proof.
  revert prev. induction d as [|x r IH]; intro prev; simpl; [lia|].
  specialize (IH (end_ x)).
  destruct (Qeq_bool (end_ x - prev) 0); simpl; lia.
Qed.

Lemma keep_changed_repeat (d : list interval) (prev : Q) :
  has_repeat d -> (List.length (keep_changed prev d) < List.length d)%nat.
Proof.
  revert prev. induction d as [|a [|b r] IH]; intro prev; try (simpl; tauto).
  intros [H|H].
  - cbn [keep_changed].
    apply Qeq_bool_diff in H. rewrite H.
    pose proof (keep_changed_length r (end_ b)).
    destruct (Qeq_bool (end_ a - prev) 0); cbn [List.length]; lia.
  - specialize (IH (end_ a) H).
    change (keep_changed prev (a :: b :: r))
      with (if Qeq_bool (end_ a - prev) 0 then keep_changed (end_ a) (b :: r)
            else a :: keep_changed (end_ a) (b :: r)).
    destruct (Qeq_bool (end_ a - prev) 0); cbn [List.length] in *; lia.
Qed.

Lemma keep_changed_all_equal (d : list interval) (prev e : Q) :
  prev == e -> Forall (fun x => end_ x == e) d -> keep_changed prev d = [].
Proof.
  revert prev. induction d as [|x r IH]; intros prev Hp H; [reflexivity|].
  inversion H as [|? ? Hx Hr]; subst. simpl.
  assert (E : Qeq_bool (end_ x - prev) 0 = true) by (apply Qeq_bool_diff; lra).
  rewrite E. apply IH; assumption.
Qed.

(** ** The pass over adjacent records *)

Lemma write_end_here (pre r : list interval) (x : interval) (e : Q) :
  write_end (List.length pre) e (pre ++ x :: r) = pre ++ set_end x e :: r.
Proof.
  induction pre as [|a pre IH]; [reflexivity|].
  simpl. rewrite IH. reflexivity.
Qed.

Lemma write_end_next (pre r : list interval) (x y : interval) (e : Q) :
  write_end (S (List.length pre)) e (pre ++ x :: y :: r) = pre ++ x :: set_end y e :: r.
Proof.
  induction pre as [|a pre IH]; [reflexivity|].
  change (write_end (S (List.length (a :: pre))) e ((a :: pre) ++ x :: y :: r))
    with (a :: write_end (S (List.length pre)) e (pre ++ x :: y :: r)).
  rewrite IH. reflexivity.
Qed.

Lemma nth_error_skip (pre l : list interval) (i : nat) :
  nth_error (pre ++ l) (List.length pre + i) = nth_error l i.
Proof.
  induction pre as [|x pre IH]; [reflexivity|]. simpl. exact IH.
Qed.

Lemma pass_in_place_from (rest pre : list interval) (dt : interval) :
  fold_left pass_turn (seq (List.length pre) (List.length rest)) (pre ++ dt :: rest)
  = pre ++ extend_from dt rest.
Proof.
  revert pre dt. induction rest as [|nxt rest IH]; intros pre dt; [reflexivity|].
  cbn [List.length seq fold_left extend_from].
  assert (E : pass_turn (pre ++ dt :: nxt :: rest) (List.length pre)
              = if Qltb (start nxt) (end_ dt)
                then (pre ++ [set_end dt (Qmax (end_ dt) (end_ nxt))])
                       ++ set_end nxt (Qmax (end_ dt) (end_ nxt)) :: rest
                else (pre ++ [dt]) ++ nxt :: rest).
  { unfold pass_turn.
    pose proof (nth_error_skip pre (dt :: nxt :: rest) 0) as H0.
    pose proof (nth_error_skip pre (dt :: nxt :: rest) 1) as H1.
    rewrite Nat.add_0_r in H0. rewrite Nat.add_1_r in H1.
    rewrite H0, H1. cbn [nth_error]. cbv zeta.
    destruct (Qltb (start nxt) (end_ dt)).
    - rewrite write_end_here, write_end_next, <- app_assoc. reflexivity.
    - rewrite <- app_assoc. reflexivity. }
  rewrite E. destruct (Qltb (start nxt) (end_ dt)).
  - specialize (IH (pre ++ [set_end dt (Qmax (end_ dt) (end_ nxt))])
                   (set_end nxt (Qmax (end_ dt) (end_ nxt)))).
    rewrite length_app, Nat.add_1_r in IH. rewrite IH, <- app_assoc. reflexivity.
  - specialize (IH (pre ++ [dt]) nxt).
    rewrite length_app, Nat.add_1_r in IH. rewrite IH, <- app_assoc. reflexivity.
Qed.

(** The pass written with indices and writes is the recursive one. *)
Lemma pass_in_place_extend (d : list interval) : pass_in_place d = extend_pass d.
Proof.
  destruct d as [|dt rest]; [reflexivity|].
  unfold pass_in_place, extend_pass. cbn [List.length].
  rewrite Nat.sub_succ, Nat.sub_0_r.
  exact (pass_in_place_from rest [] dt).
Qed.

Lemma extend_from_starts (rest : list interval) (dt : interval) :
  map start (extend_from dt rest) = map start (dt :: rest).
Proof.
  revert dt. induction rest as [|nxt rest IH]; intro dt; [reflexivity|].
  cbn [extend_from]. destruct (Qltb (start nxt) (end_ dt)); cbn [map].
  - rewrite IH. reflexivity.
  - rewrite IH. reflexivity.
Qed.

Lemma extend_from_length (rest : list interval) (dt : interval) :
  List.length (extend_from dt rest) = S (List.length rest).
Proof.
  rewrite <- (length_map start), extend_from_starts. simpl.
  rewrite length_map. reflexivity.
Qed.

Lemma extend_from_nonempty (rest : list interval) (dt : interval) :
  extend_from dt rest <> [].
Proof.
  intro H. apply (f_equal (@List.length _)) in H.
  rewrite extend_from_length in H. discriminate.
Qed.

Lemma extend_from_valid (rest : list interval) (dt : interval) :
  Forall valid (dt :: rest) -> Forall valid (extend_from dt rest).
Proof.
  revert dt. induction rest as [|nxt rest IH]; intros dt H; [exact H|].
  inversion H as [|? ? Hdt Hr]; subst. inversion Hr as [|? ? Hn Hr']; subst.
  unfold valid in *. cbn [extend_from].
  pose proof (Qmax_ge_l (end_ dt) (end_ nxt)).
  pose proof (Qmax_ge_r (end_ dt) (end_ nxt)).
  destruct (Qltb (start nxt) (end_ dt)).
  - constructor; [unfold valid; simpl; lra|].
    apply IH. constructor; [unfold valid; simpl; lra | assumption].
  - constructor; [assumption|]. apply IH. constructor; assumption.
Qed.

Lemma final_end_last (rest : list interval) (dt x : interval) :
  end_ (last (extend_from dt rest) x) = final_end dt rest.
Proof.
  revert dt. induction rest as [|nxt rest IH]; intro dt; [reflexivity|].
  cbn [extend_from final_end]. destruct (Qltb (start nxt) (end_ dt)).
  - pose proof (extend_from_nonempty rest (set_end nxt (Qmax (end_ dt) (end_ nxt)))) as Hne.
    destruct (extend_from (set_end nxt (Qmax (end_ dt) (end_ nxt))) rest) as [|h t] eqn:E;
      [congruence|].
    rewrite last_cons2, <- E. apply IH.
  - pose proof (extend_from_nonempty rest nxt) as Hne.
    destruct (extend_from nxt rest) as [|h t] eqn:E; [congruence|].
    rewrite last_cons2, <- E. apply IH.
Qed.

(** The last end never gets smaller than the end it had. *)
Lemma final_end_ge (rest : list interval) (dt : interval) :
  end_ (last (dt :: rest) dt) <= final_end dt rest.
Proof.
  revert dt. induction rest as [|nxt rest IH]; intro dt; [simpl; lra|].
  rewrite last_cons2. cbn [final_end].
  pose proof (Qmax_ge_r (end_ dt) (end_ nxt)) as Hm.
  destruct (Qltb (start nxt) (end_ dt)).
  - specialize (IH (set_end nxt (Qmax (end_ dt) (end_ nxt)))).
    destruct rest as [|n2 r2].
    + simpl in *. lra.
    + rewrite last_cons2 in *.
      rewrite (last_default (n2 :: r2) dt
                 (set_end nxt (Qmax (end_ dt) (end_ nxt)))) by discriminate.
      exact IH.
  - specialize (IH nxt).
    destruct rest as [|n2 r2].
    + simpl in *. lra.
    + rewrite last_cons2 in *.
      rewrite (last_default (n2 :: r2) dt nxt) by discriminate.
      exact IH.
Qed.

(** When every later record starts before the current end, each turn of
    the pass extends, and the ends written grow up to the final one. *)
Lemma extend_from_chain (rest : list interval) (dt : interval) :
  Forall (fun x => start x < end_ dt) rest ->
  Forall (fun x => end_ dt <= end_ x /\ end_ x <= final_end dt rest)
         (extend_from dt rest).
Proof.
  revert dt. induction rest as [|nxt rest IH]; intros dt H.
  - simpl. constructor; [split; lra | constructor].
  - inversion H as [|? ? Hn Hr]; subst.
    cbn [extend_from final_end].
    apply Qltb_true in Hn. rewrite Hn.
    set (m := Qmax (end_ dt) (end_ nxt)).
    pose proof (Qmax_ge_l (end_ dt) (end_ nxt)) as Hm. fold m in Hm.
    assert (Hr' : Forall (fun x => start x < end_ (set_end nxt m)) rest).
    { eapply Forall_impl; [|exact Hr]. simpl. intros a Ha. lra. }
    specialize (IH (set_end nxt m) Hr').
    pose proof (extend_from_nonempty rest (set_end nxt m)) as Hne.
    assert (Hfin : m <= final_end (set_end nxt m) rest).
    { destruct (extend_from (set_end nxt m) rest) as [|h t]; [congruence|].
      inversion IH as [|? ? Hh _]; subst. simpl in Hh. lra. }
    constructor.
    + simpl. split; lra.
    + eapply Forall_impl; [|exact IH]. simpl. intros a [Ha1 Ha2]. split; lra.
Qed.

(** An overlap left in the array makes the pass write the same end into
    two adjacent records. *)
Lemma extend_from_repeat (rest : list interval) (dt : interval) :
  Exists (fun x => x < 0) (diff (dt :: rest)) -> has_repeat (extend_from dt rest).
Proof.
  revert dt. induction rest as [|nxt rest IH]; intros dt H.
  - inversion H.
  - rewrite diff_cons2 in H. cbn [extend_from].
    destruct (Qltb (start nxt) (end_ dt)) eqn:T.
    + set (m := Qmax (end_ dt) (end_ nxt)).
      destruct rest as [|n2 r2].
      * simpl. left. reflexivity.
      * cbn [extend_from]. change (end_ (set_end nxt m)) with m.
        destruct (Qltb (start n2) m) eqn:T2.
        -- assert (Hex : Exists (fun x => x < 0) (diff (set_end nxt m :: n2 :: r2))).
           { rewrite diff_cons2. left. simpl. apply Qltb_true in T2. lra. }
           specialize (IH (set_end nxt m) Hex). cbn [extend_from] in IH.
           change (end_ (set_end nxt m)) with m in IH. rewrite T2 in IH.
           right. exact IH.
        -- left. reflexivity.
    + apply Qltb_false in T. inversion H as [? ? Hh|? ? Ht]; subst; [lra|].
      specialize (IH nxt Ht).
      pose proof (extend_from_nonempty rest nxt) as Hne.
      destruct (extend_from nxt rest) as [|h t]; [congruence|].
      right. exact IH.
Qed.

(** ** Order by start *)

Lemma sorted_by_start_strong (d : list interval) :
  sorted_by_start d <-> StronglySorted le_start d.
Proof.
  split.
  - intro H. apply Sorted_StronglySorted.
    + intros a b c Hab Hbc. unfold le_start in *. lra.
    + induction d as [|a [|b r] IH].
      * constructor.
      * constructor; constructor.
      * destruct H as [H1 H2]. constructor; [apply IH; exact H2|].
        constructor. exact H1.
  - intro H. apply StronglySorted_Sorted in H.
    induction d as [|a [|b r] IH]; try exact I.
    inversion H as [|? ? Hs Hh]; subst. inversion Hh; subst.
    split; [assumption | apply IH; assumption].
Qed.

Lemma strong_map_start (d d' : list interval) :
  map start d = map start d' -> StronglySorted le_start d -> StronglySorted le_start d'.
Proof.
  revert d'. induction d as [|a r IH]; intros [|a' r'] E H; try discriminate.
  - constructor.
  - simpl in E. injection E as Ea Er. inversion H as [|? ? Hs Hf]; subst.
    constructor; [apply IH; assumption|].
    clear - Ea Er Hf. revert r' Er. induction r as [|b r IH]; intros [|b' r'] Er;
      try discriminate; [constructor|].
    simpl in Er. injection Er as Eb Er. inversion Hf; subst.
    constructor; [unfold le_start in *; rewrite <- Ea, <- Eb; assumption|].
    apply IH; assumption.
Qed.

Lemma keep_changed_strong (d : list interval) (prev : Q) :
  StronglySorted le_start d -> StronglySorted le_start (keep_changed prev d).
Proof.
  revert prev. induction d as [|x r IH]; intros prev H; [constructor|].
  inversion H as [|? ? Hs Hf]; subst. simpl.
  destruct (Qeq_bool (end_ x - prev) 0); [apply IH; assumption|].
  constructor; [apply IH; assumption|].
  rewrite Forall_forall in *. intros y Hy. apply Hf.
  eapply keep_changed_In; eauto.
Qed.

Lemma keep_changed_valid (d : list interval) (prev : Q) :
  Forall valid d -> Forall valid (keep_changed prev d).
Proof.
  rewrite !Forall_forall. intros H y Hy. apply H. eapply keep_changed_In; eauto.
Qed.

(** ** Coverage *)

Lemma covered_nil (t : Q) : ~ covered [] t.
Proof. intros [y [[] _]]. Qed.

Lemma covered_cons (x : interval) (r : list interval) (t : Q) :
  covered (x :: r) t <-> inside x t \/ covered r t.
Proof.
  unfold covered. split.
  - intros [y [[->|Hy] Ht]]; [left; exact Ht | right; exists y; auto].
  - intros [Ht|[y [Hy Ht]]]; [exists x | exists y]; simpl; auto.
Qed.

Lemma strong_tail (x : interval) (r : list interval) :
  StronglySorted le_start (x :: r) -> StronglySorted le_start r.
Proof. intro H. inversion H; assumption. Qed.

Lemma strong_head (x y : interval) (r : list interval) :
  StronglySorted le_start (x :: r) -> In y r -> start x <= start y.
Proof.
  intros H Hy. inversion H as [|? ? _ Hf]; subst.
  rewrite Forall_forall in Hf. apply Hf. exact Hy.
Qed.

Lemma strong_last (d : list interval) (x y : interval) :
  StronglySorted le_start d -> In y d -> start y <= start (last d x).
Proof.
  revert y. induction d as [|a [|b r] IH]; intros y H Hy.
  - destruct Hy.
  - destruct Hy as [->|[]]. simpl. lra.
  - rewrite last_cons2. destruct Hy as [->|Hy].
    + assert (Hab : start y <= start b) by (eapply strong_head; [exact H | left; reflexivity]).
      assert (Hb : start b <= start (last (b :: r) x)).
      { apply IH; [eapply strong_tail; exact H | left; reflexivity]. }
      lra.
    + apply IH; [eapply strong_tail; exact H | exact Hy].
Qed.

Lemma last_In {A : Type} (l : list A) (x : A) : l <> [] -> In (last l x) l.
Proof.
  induction l as [|a [|b r] IH]; intro H.
  - congruence.
  - left; reflexivity.
  - rewrite last_cons2. right. apply IH. discriminate.
Qed.

(** The pass covers what the array covered before it. *)
Lemma extend_from_covered (rest : list interval) (dt : interval) (t : Q) :
  StronglySorted le_start (dt :: rest) ->
  covered (extend_from dt rest) t <-> covered (dt :: rest) t.
Proof.
  revert dt. induction rest as [|nxt rest IH]; intros dt H; [reflexivity|].
  assert (Hdn : start dt <= start nxt)
    by (eapply strong_head; [exact H | left; reflexivity]).
  cbn [extend_from]. destruct (Qltb (start nxt) (end_ dt)) eqn:T.
  - apply Qltb_true in T. set (m := Qmax (end_ dt) (end_ nxt)).
    assert (Hs : StronglySorted le_start (set_end nxt m :: rest)).
    { eapply strong_map_start; [|eapply strong_tail; exact H]. reflexivity. }
    rewrite covered_cons, (IH _ Hs), !covered_cons.
    unfold inside. cbn [start end_ set_end].
    destruct (Qmax_cases (end_ dt) (end_ nxt)) as [[Hc Hm]|[Hc Hm]]; fold m in Hm;
      intuition lra.
  - rewrite covered_cons, (IH nxt (strong_tail _ _ H)), !covered_cons. reflexivity.
Qed.

(** Dropping a record whose end equals the end before it loses nothing,
    as long as the record before it stays. *)
Lemma keep_changed_covered (r : list interval) (x : interval) (t : Q) :
  StronglySorted le_start (x :: r) ->
  inside x t \/ covered (keep_changed (end_ x) r) t <-> inside x t \/ covered r t.
Proof.
  revert x. induction r as [|y r IH]; intros x H; [reflexivity|].
  assert (Hxy : start x <= start y)
    by (eapply strong_head; [exact H | left; reflexivity]).
  specialize (IH y (strong_tail _ _ H)).
  cbn [keep_changed]. destruct (Qeq_bool (end_ y - end_ x) 0) eqn:E.
  - apply Qeq_bool_diff in E. rewrite covered_cons.
    assert (Hin : inside y t -> inside x t) by (unfold inside; intros [? ?]; split; lra).
    tauto.
  - rewrite !covered_cons. tauto.
Qed.

(** ** One turn of the loop *)

Lemma loop_body_cons (x : interval) (r : list interval) :
  loop_body (x :: r) = keep_changed (final_end x r) (extend_from x r).
Proof.
  unfold loop_body. rewrite pass_in_place_extend. unfold extend_pass.
  pose proof (extend_from_nonempty r x) as Hne.
  pose proof (final_end_last r x) as Hl.
  destruct (extend_from x r) as [|h t]; [congruence|].
  rewrite select_good, Hl. reflexivity.
Qed.

Lemma loop_body_strong (d : list interval) :
  StronglySorted le_start d -> StronglySorted le_start (loop_body d).
Proof.
  destruct d as [|x r]; intro H; [constructor|].
  rewrite loop_body_cons. apply keep_changed_strong.
  eapply strong_map_start; [|exact H]. symmetry. apply extend_from_starts.
Qed.

Lemma loop_body_valid (d : list interval) :
  Forall valid d -> Forall valid (loop_body d).
Proof.
  destruct d as [|x r]; intro H; [constructor|].
  rewrite loop_body_cons. apply keep_changed_valid, extend_from_valid, H.
Qed.

(** A turn entered with an overlap removes at least one record. *)
Lemma loop_body_shrinks (d : list interval) (m : Q) :
  np_min (diff d) = Some m -> m < 0 ->
  (List.length (loop_body d) < List.length d)%nat.
Proof.
  intros Hm Hneg. destruct d as [|x r]; [discriminate|].
  rewrite loop_body_cons.
  assert (Hex : Exists (fun y => y < 0) (diff (x :: r))).
  { apply Exists_exists. exists m. split; [apply np_min_In; exact Hm | exact Hneg]. }
  apply extend_from_repeat in Hex.
  pose proof (keep_changed_repeat _ (final_end x r) Hex) as Hl.
  rewrite extend_from_length in Hl. simpl. exact Hl.
Qed.

(** When the first record is dropped (its end equals the last end) in an
    array of well-formed intervals ordered by start, every record has
    that end and nothing is left. *)
Lemma loop_body_head_dropped (x : interval) (r : list interval) :
  StronglySorted le_start (x :: r) -> Forall valid (x :: r) ->
  (forall h t, extend_from x r = h :: t -> end_ h == final_end x r) ->
  loop_body (x :: r) = [].
Proof.
  intros Hs Hv Hd. rewrite loop_body_cons.
  apply keep_changed_all_equal with (e := final_end x r); [reflexivity|].
  destruct r as [|nxt rest].
  - simpl. constructor; [reflexivity | constructor].
  - assert (Hlast : forall y, In y (nxt :: rest) -> start y < final_end x (nxt :: rest)).
    { intros y Hy.
      pose proof (final_end_ge (nxt :: rest) x) as Hge.
      assert (Hin : In (last (x :: nxt :: rest) x) (x :: nxt :: rest))
        by (apply last_In; discriminate).
      rewrite Forall_forall in Hv. specialize (Hv _ Hin). unfold valid in Hv.
      assert (Hy' : start y <= start (last (x :: nxt :: rest) x))
        by (apply strong_last; [exact Hs | right; exact Hy]).
      lra. }
    revert Hd Hlast. cbn [extend_from final_end].
    destruct (Qltb (start nxt) (end_ x)) eqn:T; intros Hd Hlast.
    + set (m := Qmax (end_ x) (end_ nxt)) in *.
      specialize (Hd _ _ eq_refl). cbn [end_ set_end] in Hd.
      assert (Hr : Forall (fun y => start y < end_ (set_end nxt m)) rest).
      { apply Forall_forall. intros y Hy. cbn [end_ set_end].
        specialize (Hlast y (or_intror Hy)). lra. }
      pose proof (extend_from_chain rest (set_end nxt m) Hr) as Hc.
      constructor; [cbn [end_ set_end]; exact Hd|].
      eapply Forall_impl; [|exact Hc]. cbn [end_ set_end]. intros a [Ha1 Ha2]. lra.
    + exfalso. apply Qltb_false in T.
      specialize (Hd _ _ eq_refl).
      specialize (Hlast nxt (or_introl eq_refl)). lra.
Qed.

(** A turn on well-formed intervals ordered by start either empties the
    array or keeps its coverage. *)
Lemma loop_body_covered (d : list interval) :
  StronglySorted le_start d -> Forall valid d ->
  loop_body d = [] \/ forall t, covered (loop_body d) t <-> covered d t.
Proof.
  intros Hs Hv. destruct d as [|x r]; [left; reflexivity|].
  pose proof (extend_from_nonempty r x) as Hne.
  destruct (extend_from x r) as [|h t] eqn:E; [congruence|].
  destruct (Qeq_bool (end_ h - final_end x r) 0) eqn:D.
  - left. apply loop_body_head_dropped; try assumption.
    intros h' t' E'. rewrite E in E'. injection E' as <- <-.
    apply Qeq_bool_diff. exact D.
  - right. intro u. rewrite loop_body_cons, E. cbn [keep_changed]. rewrite D.
    assert (Hs' : StronglySorted le_start (h :: t)).
    { rewrite <- E. eapply strong_map_start; [|exact Hs].
      symmetry. apply extend_from_starts. }
    rewrite covered_cons, (keep_changed_covered t h u Hs'), <- covered_cons, <- E.
    apply extend_from_covered. exact Hs.
Qed.

(** ** The sort *)

Lemma interval_leb_true (a b : interval) : interval_leb a b = true -> le_start a b.
Proof.
  unfold interval_leb, le_start. destruct (start a ?= start b) eqn:C; intro H.
  - apply Qeq_alt in C. lra.
  - apply Qlt_alt in C. lra.
  - discriminate.
Qed.

Lemma interval_leb_false (a b : interval) : interval_leb a b = false -> le_start b a.
Proof.
  unfold interval_leb, le_start. destruct (start a ?= start b) eqn:C; intro H.
  - apply Qeq_alt in C. lra.
  - discriminate.
  - apply Qgt_alt in C. lra.
Qed.

Lemma insert_sorted_perm (x : interval) (l : list interval) :
  Permutation (x :: l) (insert_sorted x l).
Proof.
  induction l as [|y r IH]; simpl; [reflexivity|].
  destruct (interval_leb x y); [reflexivity|].
  rewrite perm_swap. constructor. exact IH.
Qed.

Lemma np_sort_perm (l : list interval) : Permutation l (np_sort l).
Proof.
  induction l as [|x r IH]; simpl; [constructor|].
  rewrite <- insert_sorted_perm. constructor. exact IH.
Qed.

Lemma insert_sorted_sorted (x : interval) (l : list interval) :
  Sorted le_start l -> Sorted le_start (insert_sorted x l).
Proof.
  induction l as [|y r IH]; intro H; simpl.
  - constructor; constructor.
  - destruct (interval_leb x y) eqn:E.
    + constructor; [exact H|]. constructor. apply interval_leb_true, E.
    + inversion H as [|? ? Hr Hh]; subst. constructor; [apply IH, Hr|].
      destruct r as [|z r']; simpl.
      * constructor. apply interval_leb_false, E.
      * destruct (interval_leb x z); constructor.
        -- apply interval_leb_false, E.
        -- inversion Hh; assumption.
Qed.

Lemma np_sort_strong (l : list interval) : StronglySorted le_start (np_sort l).
Proof.
  apply Sorted_StronglySorted.
  - intros a b c Hab Hbc. unfold le_start in *. lra.
  - induction l as [|x r IH]; simpl; [constructor|].
    apply insert_sorted_sorted, IH.
Qed.

Lemma np_sort_length (l : list interval) : List.length (np_sort l) = List.length l.
Proof. symmetry. apply Permutation_length, np_sort_perm. Qed.

Lemma np_sort_covered (l : list interval) (t : Q) :
  covered (np_sort l) t <-> covered l t.
Proof.
  unfold covered. split; intros [y [Hy Ht]]; exists y; split; try exact Ht.
  - eapply Permutation_in; [symmetry; apply np_sort_perm | exact Hy].
  - eapply Permutation_in; [apply np_sort_perm | exact Hy].
Qed.

Lemma np_sort_valid (l : list interval) : Forall valid l -> Forall valid (np_sort l).
Proof. apply Permutation_Forall, np_sort_perm. Qed.

(** ** The loop *)

(** The loop ends, after no more turns than the array has records. *)
Lemma while_run_total (n : nat) (d : list interval) :
  (List.length d <= n)%nat ->
  exists k r, while_run d k r /\ (k <= List.length d)%nat.
Proof.
  revert d. induction n as [|n IH]; intros d Hn.
  - destruct d; [|simpl in Hn; lia].
    exists 0%nat, (Raised ValueError). split; [apply run_raise; reflexivity | lia].
  - destruct (np_min (diff d)) as [m|] eqn:Hm.
    + destruct (Qltb m 0) eqn:T.
      * pose proof (loop_body_shrinks d m Hm (proj1 (Qltb_true _ _) T)) as Hl.
        destruct (IH (loop_body d)) as [k [r [Hr Hk]]]; [lia|].
        exists (S k), r. split; [eapply run_turn; eauto | lia].
      * exists 0%nat, (Returned d). split; [eapply run_exit; eauto | lia].
    + exists 0%nat, (Raised ValueError). split; [apply run_raise; exact Hm | lia].
Qed.

Lemma while_loop_run (d : list interval) (k : nat) (r : outcome (list interval)) :
  while_run d k r -> forall fuel, (k <= fuel)%nat -> while_loop fuel d = Some r.
Proof.
  induction 1 as [d Hm|d m Hm T|d m k r Hm T Hr IH]; intros fuel Hf.
  - destruct fuel; simpl; rewrite Hm; reflexivity.
  - destruct fuel; simpl; rewrite Hm, T; reflexivity.
  - destruct fuel as [|fuel]; [lia|]. simpl. rewrite Hm, T. apply IH. lia.
Qed.

Lemma capped_loop_run (d : list interval) (k : nat) (r : outcome (list interval)) :
  while_run d k r -> forall cap, (k <= cap)%nat -> capped_loop cap d = Ended r.
Proof.
  induction 1 as [d Hm|d m Hm T|d m k r Hm T Hr IH]; intros cap Hf.
  - destruct cap; simpl; rewrite Hm; reflexivity.
  - destruct cap; simpl; rewrite Hm, T; reflexivity.
  - destruct cap as [|cap]; [lia|]. simpl. rewrite Hm, T. apply IH. lia.
Qed.

Lemma while_run_sorted (d : list interval) (k : nat) (r : outcome (list interval)) :
  while_run d k r -> StronglySorted le_start d ->
  match r with
  | Returned cal => sorted_by_start cal /\ no_overlap cal
  | Raised e => e = ValueError
  end.
Proof.
  induction 1 as [d Hm|d m Hm T|d m k r Hm T Hr IH]; intro Hs.
  - reflexivity.
  - split; [apply sorted_by_start_strong, Hs|].
    apply no_overlap_diff. apply Qltb_false in T.
    eapply Forall_impl; [|apply np_min_le; exact Hm]. simpl. intros a Ha. lra.
  - apply IH, loop_body_strong, Hs.
Qed.

Lemma while_run_covered (d : list interval) (k : nat) (r : outcome (list interval)) :
  while_run d k r -> StronglySorted le_start d -> Forall valid d ->
  forall cal, r = Returned cal -> forall t, covered cal t <-> covered d t.
Proof.
  induction 1 as [d Hm|d m Hm T|d m k r Hm T Hr IH]; intros Hs Hv cal Hc t.
  - discriminate.
  - injection Hc as <-. reflexivity.
  - destruct (loop_body_covered d Hs Hv) as [He|He].
    + rewrite He in Hr. inversion Hr; subst; discriminate.
    + rewrite <- He. apply IH; auto using loop_body_strong, loop_body_valid.
Qed.

Lemma merge_downtimes_run (down : list interval) :
  exists k r, while_run (np_sort down) k r /\ (k <= List.length down)%nat /\
              merge_downtimes down = Some r.
Proof.
  destruct (while_run_total (List.length (np_sort down)) (np_sort down) (le_n _))
    as [k [r [Hr Hk]]].
  rewrite np_sort_length in Hk.
  exists k, r. repeat split; try assumption.
  unfold merge_downtimes. eapply while_loop_run; eauto.
Qed.

(** [new_downtimes] is the merge of the three collected sources; the
    sampler part of it cannot fail. *)
Lemma new_downtimes_merge (R : Generator) (alm : list almanac_row)
    (regular sched : list downtime_rec) :
  exists self unscheduled,
    init R (fst (year1_windows alm)) (snd (year1_windows alm)) 43 = Returned self /\
    call self = Some unscheduled /\
    new_downtimes R alm regular sched
    = merge_downtimes (collect unscheduled regular sched).
Proof.
  eexists. eexists. split; [reflexivity|]. split; [reflexivity|].
  unfold new_downtimes. destruct (year1_windows alm) as [ss sr]. reflexivity.
Qed.

(** Two overlapping intervals alone: the turn writes the same end into
    both, both are dropped, and [np.min] raises on the empty array. *)
Example merge_two_overlapping :
  merge_downtimes [mkInterval 0 10; mkInterval 1 5] = Some (Raised ValueError).
Proof. vm_compute. reflexivity. Qed.

(** * The claims on the merge *)

(** C1. For every input of the merge step, the call ends; a calendar it
    returns is sorted ascending by start and each interval ends no later
    than the next one starts.  The only other end is the [ValueError] of
    [np.min]. *)
Theorem merge_sorted_no_overlap (down : list interval) :
  exists r, merge_downtimes down = Some r /\
    match r with
    | Returned cal => sorted_by_start cal /\ no_overlap cal
    | Raised e => e = ValueError
    end.
Proof.
  destruct (merge_downtimes_run down) as [k [r [Hr [_ Hm]]]].
  exists r. split; [exact Hm|].
  eapply while_run_sorted; [exact Hr | apply np_sort_strong].
Qed.

(** What a returned calendar covers: for input intervals with start
    before end, exactly the time the input intervals cover.  The lemma
    says nothing of the inputs for which no calendar is returned. *)
Lemma merge_coverage (down cal : list interval) (t : Q) :
  Forall valid down ->
  merge_downtimes down = Some (Returned cal) ->
  covered cal t <-> covered down t.
Proof.
  intros Hv Hm.
  destruct (merge_downtimes_run down) as [k [r [Hr [_ Hm']]]].
  rewrite Hm in Hm'. injection Hm' as <-.
  rewrite <- (np_sort_covered down).
  exact (while_run_covered _ _ _ Hr (np_sort_strong down) (np_sort_valid down Hv)
           cal eq_refl t).
Qed.

(** C2 fails on the code.  The intervals (0,10) and (1,5), both with
    start before end, cover the instant 3; the turn of the loop writes
    the end 10 into both records, the comparison with the rolled ends
    (which sets the first record against the last) drops both, and
    [np.min] raises on the empty array: no calendar is returned, so the
    time of the input is covered by nothing.  The same with the two
    intervals coming from the two site models, and with three intervals
    that chain into one. *)
Theorem merge_chained_input_raises :
  Forall valid [iv 0 10; iv 1 5] /\
  covered [iv 0 10; iv 1 5] 3 /\
  loop_body (np_sort [iv 0 10; iv 1 5]) = [] /\
  merge_downtimes [iv 0 10; iv 1 5] = Some (Raised ValueError) /\
  new_downtimes coin_generator (almanac_of_nights 1)
    [mkDowntime 1 5 "minor event"] [mkDowntime 0 10 "maintenance"]
  = Some (Raised ValueError) /\
  merge_downtimes [iv 0 10; iv 1 5; iv 2 20] = Some (Raised ValueError).
Proof.
  split; [repeat constructor|].
  split; [exists (iv 0 10); split; [left; reflexivity | split; vm_compute; congruence]|].
  repeat split; vm_compute; reflexivity.
Qed.

(** C5. The loop of the merge never runs more turns than there are input
    intervals, and it always ends: after [k] turns with [k] at most their
    number.  So the loop capped at that number, failing with
    [MergeNonConvergence] beyond it, ends as the loop of the source does,
    and the cap is never reached. *)
Theorem merge_turns_bounded (down : list interval) :
  exists k r, while_run (np_sort down) k r /\ (k <= List.length down)%nat /\
    merge_capped down = Ended r /\
    forall extra, while_loop (List.length down + extra) (np_sort down) = Some r.
Proof.
  destruct (merge_downtimes_run down) as [k [r [Hr [Hk _]]]].
  exists k, r. repeat split; try assumption.
  - unfold merge_capped. eapply capped_loop_run; eauto.
  - intro extra. eapply while_loop_run; [exact Hr | lia].
Qed.

(** C9. The intervals (10,12), (11,13), (20,21), in any order, merge to
    (10,13), (20,21). *)
Theorem merge_example :
  Forall (fun down => merge_downtimes down = Some (Returned [iv 10 13; iv 20 21]))
    [ [iv 10 12; iv 11 13; iv 20 21]; [iv 10 12; iv 20 21; iv 11 13];
      [iv 11 13; iv 10 12; iv 20 21]; [iv 11 13; iv 20 21; iv 10 12];
      [iv 20 21; iv 10 12; iv 11 13]; [iv 20 21; iv 11 13; iv 10 12] ].
Proof. repeat constructor. Qed.

(** C10. With fewer than two intervals the difference array is empty and
    [np.min] raises [ValueError]: no calendar is returned. *)
Theorem merge_short_raises (down : list interval) :
  (List.length down < 2)%nat -> merge_downtimes down = Some (Raised ValueError).
Proof.
  intro H. destruct down as [|a [|b r]]; [reflexivity | reflexivity | simpl in H; lia].
Qed.

Lemma merge_short_raises_witness :
  merge_downtimes [iv 10 12] = Some (Raised ValueError).
Proof.
  apply (merge_short_raises [iv 10 12]). simpl. lia.
Defined.

(** * The claims on the sampler *)


Lemma standard_night_first_firing (night : nat) (sunset prob : Q)
    (counted : list bool) (acc : list downtime_rec) :
  standard_night night sunset prob counted acc =
  match first_firing prob with
  | Some k => fire k night sunset counted acc
  | None => (counted, acc)
  end.
Proof.
  unfold standard_night, first_firing, severities. cbn [find].
  destruct (Qltb prob (ev_P CATASTROPHIC_EVENT)); [reflexivity|].
  destruct (Qltb prob (ev_P MAJOR_EVENT)); [reflexivity|].
  destruct (Qltb prob (ev_P INTERMEDIATE_EVENT)); [reflexivity|].
  destruct (Qltb prob (ev_P MINOR_EVENT)); reflexivity.
Qed.

(** C3. On a night at or after [end_of_start] that is not counted yet,
    with the one draw [p] of that night: the severities are tried in the
    order catastrophic (0.000274), major (0.00137), intermediate (0.00548),
    minor (0.0137); the first whose probability exceeds [p] gives the one
    record of the night, from the sunset and lasting its length in days,
    and marks that many nights; when none does, nothing is recorded. *)
Theorem standard_night_priority (R : Generator) (night : nat) (sunset sunrise : Q)
    (st : sampler_state R) :
  (end_of_start <= night)%nat ->
  nth night (night_counted st) false = false ->
  map ev_P severities = [274 # 1000000; 137 # 100000; 548 # 100000; 137 # 10000] /\
  night_body R night sunset sunrise st =
  match first_firing (fst (random R (rng st))) with
  | Some k =>
      mkState (snd (random R (rng st)))
              (set_slice night (night + ev_length k) (night_counted st))
              (recorded st ++ [mkDowntime sunset (sunset + Qnat (ev_length k)) (ev_level k)])
  | None => mkState (snd (random R (rng st))) (night_counted st) (recorded st)
  end.
Proof.
  intros Hn Hc. split; [reflexivity|].
  unfold night_body. destruct (random R (rng st)) as [prob g]. cbn [fst snd].
  rewrite Hc.
  assert (E : (night <? end_of_start)%nat = false) by (apply Nat.ltb_ge; exact Hn).
  rewrite E, standard_night_first_firing.
  destruct (first_firing prob); reflexivity.
Qed.

Lemma standard_night_priority_witness :
  map ev_P severities = [274 # 1000000; 137 # 100000; 548 # 100000; 137 # 10000] /\
  night_body (tape_generator (fun _ => [])) 380 (3809 # 10) (3813 # 10)
             (mkState (R := tape_generator (fun _ => [])) [1 # 1000] (repeat false 400) []) =
  match first_firing (fst (random (tape_generator (fun _ => [])) [1 # 1000])) with
  | Some k =>
      mkState (R := tape_generator (fun _ => []))
              (snd (random (tape_generator (fun _ => [])) [1 # 1000]))
              (set_slice 380 (380 + ev_length k) (repeat false 400))
              ([] ++ [mkDowntime (3809 # 10) ((3809 # 10) + Qnat (ev_length k)) (ev_level k)])
  | None => mkState (R := tape_generator (fun _ => []))
              (snd (random (tape_generator (fun _ => [])) [1 # 1000]))
              (repeat false 400) []
  end.
Proof.
  apply (standard_night_priority (tape_generator (fun _ => [])) 380 (3809 # 10) (3813 # 10)
           (mkState (R := tape_generator (fun _ => [])) [1 # 1000] (repeat false 400) [])).
  - unfold end_of_start. lia.
  - reflexivity.
Defined.

(** ** The year-one event *)

Lemma clamp_prob_time_bounds (hours drawn : Q) :
  1 <= clamp_prob_time hours drawn /\ clamp_prob_time hours drawn <= Qmax 1 hours.
Proof.
  unfold clamp_prob_time.
  pose proof (Qmax_ge_l 1 hours). pose proof (Qmax_ge_r 1 hours).
  destruct (Qle_bool hours drawn) eqn:E1.
  - destruct (Qle_bool hours 1) eqn:E2.
    + split; lra.
    + apply Qle_bool_false in E2. split; lra.
  - apply Qle_bool_false in E1.
    destruct (Qle_bool drawn 1) eqn:E2.
    + split; lra.
    + apply Qle_bool_false in E2. split; lra.
Qed.

Lemma unit_scale (x u : Q) : 0 <= x -> 0 <= u -> u <= 1 -> 0 <= x * u /\ x * u <= x.
Proof.
  intros Hx Hu Hu1. split.
  - apply Qmult_le_0_compat; assumption.
  - assert (H : u * x <= 1 * x) by (apply Qmult_le_compat_r; assumption).
    lra.
Qed.

Lemma year1_event_shape (R : Generator) (sunset sunrise : Q) (g : bitgen R) :
  unit_draws R ->
  let hours := (sunrise - sunset) * 24 in
  let c := clamp_prob_time hours (fst (gumbel R 1 6 g)) in
  let ev := fst (year1_event R sunset sunrise g) in
  activity ev = "Year1 Eng"%string /\
  (hours - c <= 0 /\ dt_start ev = sunset /\ dt_end ev = sunrise \/
   0 < hours - c /\ sunset <= dt_start ev /\ dt_start ev < dt_end ev).
Proof.
  intros Hu hours c ev. subst c ev. unfold year1_event. fold hours.
  pose proof (clamp_prob_time_bounds hours (fst (gumbel R 1 6 g))) as [Hc _].
  destruct (gumbel R 1 6 g) as [drawn g2]. cbn [fst] in *.
  set (c := clamp_prob_time hours drawn) in *.
  destruct (Qle_bool (hours - c) 0) eqn:E.
  - cbn [fst activity dt_start dt_end]. apply Qle_bool_iff in E.
    split; [reflexivity|]. left. repeat split. exact E.
  - apply Qle_bool_false in E. unfold uniform.
    pose proof (Hu g2) as [Hu0 Hu1].
    destruct (next_double R g2) as [u g3]. cbn [fst] in *.
    cbn [fst activity dt_start dt_end].
    split; [reflexivity|]. right.
    unfold Qdiv in *. change (/ 24) with (1 # 24) in *.
    assert (Hx : 0 <= sunset + (hours - c) * (1 # 24) - sunset) by lra.
    destruct (unit_scale _ u Hx Hu0 (Qlt_le_weak _ _ Hu1)) as [H0 _].
    set (w := (sunset + (hours - c) * (1 # 24) - sunset) * u) in *.
    clearbody hours c w. repeat split; lra.
Qed.


Lemma coin_unit_draws : unit_draws coin_generator.
Proof.
  intros [|[|] r]; split; vm_compute; congruence.
Qed.



(** ** Generation as a whole *)





(** ** Two runs *)

(** C8. Two runs of [make_data] on instances with the same seed, sunsets
    and sunrises leave the same downtime array: same records, in the same
    order, whatever generator state and downtime the instances held
    before. *)
Theorem make_data_deterministic (R : Generator)
    (self1 self2 : UnscheduledDowntimeDataYearOne R) :
  seed self1 = seed self2 ->
  sunsets self1 = sunsets self2 ->
  sunrises self1 = sunrises self2 ->
  call (make_data self1) = call (make_data self2) /\
  init R (sunsets self1) (sunrises self1) (seed self1) = Returned (make_data self2).
Proof.
  intros Hs Hss Hsr. unfold init, call, make_data.
  cbn [seed sunsets sunrises downtime]. rewrite Hs, Hss, Hsr. split; reflexivity.
Qed.

Lemma make_data_deterministic_witness :
  call (make_data (mkSelf (R := coin_generator) 42 [0; 1] [1 # 2; 3 # 2] None None))
  = call (make_data (mkSelf (R := coin_generator) 42 [0; 1] [1 # 2; 3 # 2]
                       (Some [mkDowntime 7 8 "minor event"]) (Some [true]))) /\
  init coin_generator [0; 1] [1 # 2; 3 # 2] 42
  = Returned (make_data (mkSelf (R := coin_generator) 42 [0; 1] [1 # 2; 3 # 2]
                           (Some [mkDowntime 7 8 "minor event"]) (Some [true]))).
Proof.
  apply (make_data_deterministic coin_generator
           (mkSelf (R := coin_generator) 42 [0; 1] [1 # 2; 3 # 2] None None)
           (mkSelf (R := coin_generator) 42 [0; 1] [1 # 2; 3 # 2]
              (Some [mkDowntime 7 8 "minor event"]) (Some [true])));
    reflexivity.
Defined.

(** ** The nights handed to the sampler *)

Lemma year1_sunsets_range (alm : list almanac_row) :
  Forall (fun r => (0 <= night r < 366)%Z) (year1_sunsets alm).
Proof.
  apply Forall_forall. intros r Hr. unfold year1_sunsets in Hr.
  apply filter_In in Hr. destruct Hr as [_ Hr].
  apply andb_true_iff in Hr. destruct Hr as [H1 H2].
  apply Z.leb_le in H1. apply Z.ltb_lt in H2. lia.
Qed.

Lemma year1_sunsets_nights (alm : list almanac_row) :
  map night (year1_sunsets alm)
  = filter (fun z => (0 <=? z)%Z && (z <? 366)%Z) (map night alm).
Proof.
  unfold year1_sunsets. induction alm as [|r alm IH]; [reflexivity|].
  cbn [filter map]. destruct ((0 <=? night r)%Z && (night r <? 366)%Z); cbn [map];
    rewrite IH; reflexivity.
Qed.

Lemma year1_sunsets_length (alm : list almanac_row) :
  NoDup (map night alm) -> (List.length (year1_sunsets alm) <= 366)%nat.
Proof.
  intro Hnd.
  rewrite <- (length_map night), year1_sunsets_nights.
  replace 366%nat with (List.length (map Z.of_nat (seq 0 366)))
    by (rewrite length_map, length_seq; reflexivity).
  apply NoDup_incl_length; [apply NoDup_filter, Hnd|].
  intros z Hz. apply filter_In in Hz. destruct Hz as [_ Hz].
  apply andb_true_iff in Hz. destruct Hz as [H1 H2].
  apply Z.leb_le in H1. apply Z.ltb_lt in H2.
  apply in_map_iff. exists (Z.to_nat z). split; [lia|].
  apply in_seq. lia.
Qed.

Lemma night_body_year1 (R : Generator) (night : nat) (sunset sunrise : Q)
    (st : sampler_state R) :
  (night < end_of_start)%nat ->
  Forall year1_eng (recorded st) ->
  Forall year1_eng (recorded (night_body R night sunset sunrise st)).
Proof.
  intros Hn Hf. unfold night_body. destruct (random R (rng st)) as [prob g].
  destruct (nth night (night_counted st) false); [exact Hf|].
  apply Nat.ltb_lt in Hn. rewrite Hn. unfold year1_night.
  destruct (Qle_bool prob (nightly_threshold night)); [|exact Hf].
  unfold year1_event. destruct (gumbel R 1 6 g) as [drawn g2].
  destruct (Qle_bool ((sunrise - sunset) * 24
                      - clamp_prob_time ((sunrise - sunset) * 24) drawn) 0).
  - cbn [recorded]. apply Forall_app. split; [exact Hf|]. repeat constructor.
  - destruct (uniform R sunset _ g2) as [offset g3].
    cbn [recorded]. apply Forall_app. split; [exact Hf|]. repeat constructor.
Qed.

Lemma nights_loop_year1 (R : Generator) (windows : list (Q * Q)) (night : nat)
    (st : sampler_state R) :
  (night + List.length windows <= end_of_start)%nat ->
  Forall year1_eng (recorded st) ->
  Forall year1_eng (recorded (nights_loop R night windows st)).
Proof.
  revert night st. induction windows as [|[ss sr] rest IH]; intros night st Hn Hf.
  - exact Hf.
  - cbn [nights_loop]. simpl in Hn. apply IH; [lia|].
    apply night_body_year1; [lia | exact Hf].
Qed.

(** C7, as stated, fails: from an almanac that has the first 400 nights,
    366 windows reach the sampler, fewer than [end_of_start]. *)
Lemma year1_windows_short_of_380 :
  List.length (fst (year1_windows (almanac_of_nights 400))) = 366%nat /\
  List.length (snd (year1_windows (almanac_of_nights 400))) = 366%nat /\
  ~ (end_of_start <= List.length (fst (year1_windows (almanac_of_nights 400))))%nat.
Proof.
  assert (H : List.length (year1_sunsets (almanac_of_nights 400)) = 366%nat)
    by (vm_compute; reflexivity).
  unfold year1_windows. cbn [fst snd]. rewrite !length_map, H.
  repeat split. unfold end_of_start. lia.
Qed.

(** C7, as the code has it.  From an almanac with one row per night the
    builder takes the rows of nights 0 to 365, at most 366 of them and so
    fewer than [end_of_start], and hands their twelve degree sunsets and
    sunrises to the sampler with seed 43; every night the sampler then
    sees is before [end_of_start], and all it records is year-one
    engineering time. *)
Theorem year1_windows_first_366 (R : Generator) (alm : list almanac_row) :
  NoDup (map night alm) ->
  year1_windows alm
  = (map sun_n12_setting (year1_sunsets alm), map sun_n12_rising (year1_sunsets alm)) /\
  Forall (fun r => (0 <= night r < 366)%Z) (year1_sunsets alm) /\
  (List.length (fst (year1_windows alm)) <= 366)%nat /\
  (366 < end_of_start)%nat /\
  exists self d,
    init R (fst (year1_windows alm)) (snd (year1_windows alm)) 43 = Returned self /\
    call self = Some d /\ Forall year1_eng d.
Proof.
  intro Hnd. pose proof (year1_sunsets_length alm Hnd) as Hl.
  split; [reflexivity|]. split; [apply year1_sunsets_range|].
  unfold year1_windows. cbn [fst snd]. rewrite length_map.
  split; [exact Hl|]. split; [unfold end_of_start; lia|].
  eexists. eexists. split; [reflexivity|]. split; [reflexivity|].
  cbn [make_data sunsets sunrises seed].
  apply nights_loop_year1; [|constructor].
  rewrite length_combine, !length_map. unfold end_of_start. lia.
Qed.

Lemma year1_windows_first_366_witness :
  year1_windows (almanac_of_nights 3)
  = (map sun_n12_setting (year1_sunsets (almanac_of_nights 3)),
     map sun_n12_rising (year1_sunsets (almanac_of_nights 3))) /\
  Forall (fun r => (0 <= night r < 366)%Z) (year1_sunsets (almanac_of_nights 3)) /\
  (List.length (fst (year1_windows (almanac_of_nights 3))) <= 366)%nat /\
  (366 < end_of_start)%nat /\
  exists self d,
    init coin_generator (fst (year1_windows (almanac_of_nights 3)))
         (snd (year1_windows (almanac_of_nights 3))) 43 = Returned self /\
    call self = Some d /\ Forall year1_eng d.
Proof.
  apply (year1_windows_first_366 coin_generator (almanac_of_nights 3)).
  simpl. repeat constructor; simpl; intuition discriminate.
Defined.

(** * Further properties of the merge *)

Lemma Qmax_either (a b : Q) : Qmax a b = a \/ Qmax a b = b.
Proof.
  unfold Qmax, GenericMinMax.gmax. destruct (a ?= b); auto.
Qed.

Lemma loop_body_length (d : list interval) :
  (List.length (loop_body d) <= List.length d)%nat.
Proof.
  destruct d as [|x r]; [simpl; lia|].
  rewrite loop_body_cons.
  pose proof (keep_changed_length (extend_from x r) (final_end x r)) as H.
  rewrite extend_from_length in H. simpl. exact H.
Qed.

(** The pass writes no time that was not in the array: starts stay, and
    an end is replaced by an end of the array. *)
Lemma extend_from_times (S E : list Q) (rest : list interval) (dt : interval) :
  Forall (fun x => In (start x) S /\ In (end_ x) E) (dt :: rest) ->
  Forall (fun x => In (start x) S /\ In (end_ x) E) (extend_from dt rest).
Proof.
  revert dt. induction rest as [|nxt rest IH]; intros dt H; [exact H|].
  inversion H as [|? ? [Hd1 Hd2] Hr]; subst.
  inversion Hr as [|? ? [Hn1 Hn2] Hr']; subst.
  cbn [extend_from]. destruct (Qltb (start nxt) (end_ dt)).
  - assert (Hm : In (Qmax (end_ dt) (end_ nxt)) E)
      by (destruct (Qmax_either (end_ dt) (end_ nxt)) as [-> | ->]; assumption).
    constructor; [split; assumption|].
    apply IH. constructor; [split; assumption | exact Hr'].
  - constructor; [split; assumption|]. apply IH. exact Hr.
Qed.

Lemma loop_body_times (S E : list Q) (d : list interval) :
  Forall (fun x => In (start x) S /\ In (end_ x) E) d ->
  Forall (fun x => In (start x) S /\ In (end_ x) E) (loop_body d).
Proof.
  destruct d as [|x r]; intro H; [constructor|].
  rewrite loop_body_cons. apply extend_from_times in H.
  rewrite Forall_forall in *. intros y Hy. apply H.
  eapply keep_changed_In; eauto.
Qed.

(** What holds of an array the loop returns. *)
Lemma while_run_returned (d : list interval) (k : nat) (r : outcome (list interval)) :
  while_run d k r ->
  forall cal, r = Returned cal ->
    (exists m, np_min (diff cal) = Some m /\ Qltb m 0 = false) /\
    (List.length cal <= List.length d)%nat /\
    (Forall valid d -> Forall valid cal) /\
    (forall S E, Forall (fun x => In (start x) S /\ In (end_ x) E) d ->
                 Forall (fun x => In (start x) S /\ In (end_ x) E) cal).
Proof.
  induction 1 as [d Hm|d m Hm T|d m k r Hm T Hr IH]; intros cal Hc.
  - discriminate.
  - injection Hc as <-. repeat split; auto. exists m. auto.
  - destruct (IH cal Hc) as [H1 [H2 [H3 H4]]].
    pose proof (loop_body_length d).
    repeat split.
    + exact H1.
    + lia.
    + intro Hv. apply H3, loop_body_valid, Hv.
    + intros S E HSE. apply H4, loop_body_times, HSE.
Qed.

Lemma diff_length (d : list interval) :
  List.length (diff d) = (List.length d - 1)%nat.
Proof.
  induction d as [|a [|b r] IH]; try reflexivity.
  rewrite diff_cons2. cbn [List.length] in *. rewrite IH. lia.
Qed.

Lemma merge_returned (down cal : list interval) :
  merge_downtimes down = Some (Returned cal) ->
  exists k, while_run (np_sort down) k (Returned cal).
Proof.
  intro Hm. destruct (merge_downtimes_run down) as [k [r [Hr [_ Hm']]]].
  rewrite Hm in Hm'. injection Hm' as <-. exists k. exact Hr.
Qed.

(** X1. A calendar the merge returns has at least two intervals and no
    more than the input has. *)
Theorem merge_returned_length (down cal : list interval) :
  merge_downtimes down = Some (Returned cal) ->
  (2 <= List.length cal <= List.length down)%nat.
Proof.
  intro Hm. destruct (merge_returned down cal Hm) as [k Hr].
  destruct (while_run_returned _ _ _ Hr cal eq_refl) as [[m [Hmin _]] [Hl _]].
  rewrite np_sort_length in Hl. split; [|exact Hl].
  pose proof (diff_length cal) as Hd.
  destruct (diff cal) as [|x l]; [discriminate|]. simpl in Hd. lia.
Qed.

Lemma merge_returned_length_witness :
  (2 <= List.length [iv 10 13; iv 20 21]
   <= List.length [iv 20 21; iv 11 13; iv 10 12])%nat.
Proof.
  apply (merge_returned_length [iv 20 21; iv 11 13; iv 10 12] [iv 10 13; iv 20 21]).
  vm_compute. reflexivity.
Defined.

(** X2. Every interval of a returned calendar starts at the start of an
    input interval and ends at the end of an input interval; and when the
    input intervals have their start before their end, so have the
    intervals of the calendar. *)
Theorem merge_returned_times (down cal : list interval) :
  merge_downtimes down = Some (Returned cal) ->
  Forall (fun x => In (start x) (map start down) /\ In (end_ x) (map end_ down)) cal /\
  (Forall valid down -> Forall valid cal).
Proof.
  intro Hm. destruct (merge_returned down cal Hm) as [k Hr].
  destruct (while_run_returned _ _ _ Hr cal eq_refl) as [_ [_ [H3 H4]]].
  split.
  - apply (H4 (map start down) (map end_ down)).
    apply Forall_forall. intros x Hx.
    apply (Permutation_in _ (Permutation_sym (np_sort_perm down))) in Hx.
    split; apply in_map; exact Hx.
  - intro Hv. apply H3, np_sort_valid, Hv.
Qed.

Lemma merge_returned_times_witness :
  Forall (fun x => In (start x) (map start [iv 20 21; iv 11 13; iv 10 12]) /\
                   In (end_ x) (map end_ [iv 20 21; iv 11 13; iv 10 12]))
         [iv 10 13; iv 20 21] /\
  (Forall valid [iv 20 21; iv 11 13; iv 10 12] -> Forall valid [iv 10 13; iv 20 21]).
Proof.
  apply (merge_returned_times [iv 20 21; iv 11 13; iv 10 12] [iv 10 13; iv 20 21]).
  vm_compute. reflexivity.
Defined.

Lemma np_sort_fixed (d : list interval) :
  sorted_by_start d -> no_overlap d -> Forall valid d -> np_sort d = d.
Proof.
  induction d as [|a [|b r] IH]; intros Hs Hn Hv; try reflexivity.
  destruct Hs as [_ Hs]. destruct Hn as [Hab Hn].
  inversion Hv as [|? ? Ha Hv']; subst.
  change (np_sort (a :: b :: r)) with (insert_sorted a (np_sort (b :: r))).
  rewrite (IH Hs Hn Hv'). cbn [insert_sorted].
  unfold interval_leb, valid in *.
  assert (Hlt : start a < start b) by lra.
  destruct (start a ?= start b) eqn:C.
  - apply Qeq_alt in C. lra.
  - reflexivity.
  - apply Qgt_alt in C. lra.
Qed.

(** X3. Merging a returned calendar once more returns it unchanged (for
    input intervals with start before end). *)
Theorem merge_idempotent (down cal : list interval) :
  Forall valid down ->
  merge_downtimes down = Some (Returned cal) ->
  merge_downtimes cal = Some (Returned cal).
Proof.
  intros Hv Hm. destruct (merge_returned down cal Hm) as [k Hr].
  pose proof (while_run_sorted _ _ _ Hr (np_sort_strong down)) as [Hs Hn].
  destruct (while_run_returned _ _ _ Hr cal eq_refl) as [[m [Hmin T]] [_ [H3 _]]].
  specialize (H3 (np_sort_valid down Hv)).
  unfold merge_downtimes. rewrite (np_sort_fixed cal Hs Hn H3).
  destruct (List.length cal); simpl; rewrite Hmin, T; reflexivity.
Qed.

Lemma merge_idempotent_witness :
  merge_downtimes [iv 10 13; iv 20 21] = Some (Returned [iv 10 13; iv 20 21]).
Proof.
  apply (merge_idempotent [iv 20 21; iv 11 13; iv 10 12] [iv 10 13; iv 20 21]).
  - repeat constructor.
  - vm_compute. reflexivity.
Defined.

(** X4. When all input intervals share one instant, the merge returns no
    calendar: the records collapse to one end, are all dropped, and
    [np.min] raises [ValueError]. *)
Theorem merge_common_instant_raises (down : list interval) (t : Q) :
  Forall (fun x => inside x t) down ->
  merge_downtimes down = Some (Raised ValueError).
Proof.
  intro Hin. destruct (merge_downtimes_run down) as [k [r [Hr [_ Hm]]]].
  rewrite Hm. f_equal.
  pose proof (while_run_sorted _ _ _ Hr (np_sort_strong down)) as Hs.
  destruct r as [cal|e]; [exfalso | rewrite Hs; reflexivity].
  destruct Hs as [_ Hn].
  destruct (while_run_returned _ _ _ Hr cal eq_refl) as [[m [Hmin _]] [_ [_ H4]]].
  specialize (H4 (map start down) (map end_ down)).
  assert (H0 : Forall (fun x => In (start x) (map start down) /\
                                In (end_ x) (map end_ down)) (np_sort down)).
  { apply Forall_forall. intros x Hx.
    apply (Permutation_in _ (Permutation_sym (np_sort_perm down))) in Hx.
    split; apply in_map; exact Hx. }
  specialize (H4 H0).
  destruct cal as [|a [|b r]]; try discriminate.
  destruct Hn as [Hab _].
  inversion H4 as [|? ? [_ Ha] H4']; subst. inversion H4' as [|? ? [Hb _] _]; subst.
  apply in_map_iff in Ha. destruct Ha as [x [Ex Hx]].
  apply in_map_iff in Hb. destruct Hb as [y [Ey Hy]].
  rewrite Forall_forall in Hin.
  destruct (Hin x Hx) as [_ Hx2]. destruct (Hin y Hy) as [Hy1 _].
  rewrite Ex in Hx2. rewrite Ey in Hy1. lra.
Qed.

Lemma merge_common_instant_raises_witness :
  merge_downtimes [iv 0 10; iv 1 5; iv 2 20] = Some (Raised ValueError).
Proof.
  apply (merge_common_instant_raises [iv 0 10; iv 1 5; iv 2 20] 3).
  repeat constructor; vm_compute; congruence.
Defined.

(** * Further properties of the sampler *)

Lemma Qnat_le (n m : nat) : (n <= m)%nat -> Qnat n <= Qnat m.
Proof.
  intro H. unfold Qnat. rewrite <- Zle_Qle. lia.
Qed.

Lemma nightly_threshold_eq (n : nat) :
  nightly_threshold n == (1 # 2) - Qnat n * (1 # 850).
Proof.
  unfold nightly_threshold.
  change (Qnat (end_of_start + 45)) with 425.
  unfold Qdiv. change (/ 425) with (1 # 425). ring.
Qed.

(** X5. The nightly threshold is one half on the first night, never grows
    from one night to the next, and is still above 9/170 (about 5.3 per
    cent) on every night before [end_of_start]. *)
Theorem nightly_threshold_decays (n m : nat) :
  (n <= m)%nat -> (m < end_of_start)%nat ->
  nightly_threshold 0 == 1 # 2 /\
  nightly_threshold m <= nightly_threshold n /\
  9 # 170 < nightly_threshold m.
Proof.
  intros Hnm Hm. rewrite !nightly_threshold_eq.
  pose proof (Qnat_le n m Hnm) as H1.
  assert (H2 : Qnat m <= Qnat 379) by (apply Qnat_le; unfold end_of_start in Hm; lia).
  change (Qnat 379) with 379 in H2. change (Qnat 0) with 0.
  repeat split; lra.
Qed.

Lemma nightly_threshold_decays_witness :
  nightly_threshold 0 == 1 # 2 /\
  nightly_threshold 379 <= nightly_threshold 100 /\
  9 # 170 < nightly_threshold 379.
Proof.
  apply (nightly_threshold_decays 100 379); unfold end_of_start; lia.
Defined.

(** X6. On a night before [end_of_start], a draw above one half records
    nothing; the night is marked all the same and only that one draw is
    taken from the generator. *)
Theorem year1_high_draw_quiet (R : Generator) (night : nat) (sunset sunrise : Q)
    (st : sampler_state R) :
  (night < end_of_start)%nat ->
  nth night (night_counted st) false = false ->
  1 # 2 < fst (random R (rng st)) ->
  night_body R night sunset sunrise st
  = mkState (snd (random R (rng st)))
            (set_slice night (S night) (night_counted st)) (recorded st).
Proof.
  intros Hn Hc Hp. unfold night_body.
  destruct (random R (rng st)) as [prob g]. cbn [fst snd] in *.
  rewrite Hc. pose proof Hn as Hn'. apply Nat.ltb_lt in Hn'. rewrite Hn'.
  unfold year1_night.
  assert (E : Qle_bool prob (nightly_threshold night) = false).
  { apply Qle_bool_false. rewrite nightly_threshold_eq.
    assert (H0 : Qnat 0 <= Qnat night) by (apply Qnat_le; lia).
    change (Qnat 0) with 0 in H0. lra. }
  rewrite E. reflexivity.
Qed.

Lemma year1_high_draw_quiet_witness :
  night_body coin_generator 0 0 (1 # 2)
    (mkState (R := coin_generator) [true; false] [false] [])
  = mkState (R := coin_generator)
      (snd (random coin_generator [true; false]))
      (set_slice 0 1 [false]) [].
Proof.
  apply (year1_high_draw_quiet coin_generator 0 0 (1 # 2)
           (mkState (R := coin_generator) [true; false] [false] [])).
  - unfold end_of_start. lia.
  - reflexivity.
  - vm_compute. reflexivity.
Defined.

(** ** Nights covered by an event of several days *)

Lemma set_slice_from (lo hi : nat) (a : list bool) (k i : nat) :
  (lo <= k + i < hi)%nat -> (i < List.length a)%nat ->
  nth i (map (fun p => if (lo <=? fst p)%nat && (fst p <? hi)%nat then true else snd p)
             (combine (seq k (List.length a)) a)) false = true.
Proof.
  revert k i. induction a as [|b a IH]; intros k i Hr Hi; [simpl in Hi; lia|].
  cbn [List.length seq combine map]. destruct i as [|i].
  - cbn [nth fst snd].
    assert (E1 : (lo <=? k)%nat = true) by (apply Nat.leb_le; lia).
    assert (E2 : (k <? hi)%nat = true) by (apply Nat.ltb_lt; lia).
    rewrite E1, E2. reflexivity.
  - cbn [nth]. apply IH; simpl in Hi; lia.
Qed.

Lemma set_slice_marked (lo hi : nat) (a : list bool) (i : nat) :
  (lo <= i < hi)%nat -> (i < List.length a)%nat ->
  nth i (set_slice lo hi a) false = true.
Proof.
  intros Hr Hi. unfold set_slice. apply set_slice_from; [simpl; lia | exact Hi].
Qed.

Lemma nights_loop_counted (R : Generator) (windows : list (Q * Q)) (n : nat)
    (st : sampler_state R) :
  (forall i, (n <= i < n + List.length windows)%nat ->
             nth i (night_counted st) false = true) ->
  recorded (nights_loop R n windows st) = recorded st.
Proof.
  revert n st. induction windows as [|[ss sr] rest IH]; intros n st H; [reflexivity|].
  cbn [nights_loop].
  assert (E : night_body R n ss sr st
              = mkState (snd (random R (rng st))) (night_counted st) (recorded st)).
  { unfold night_body. destruct (random R (rng st)) as [prob g].
    rewrite (H n) by (simpl; lia). reflexivity. }
  rewrite E, IH; [reflexivity|].
  intros i Hi. cbn [night_counted]. apply H. simpl. lia.
Qed.

(** X8. When a severity fires on a night at or after [end_of_start], the
    nights its length covers record nothing more: over the night of the
    event and the nights that follow within its length, the event is the
    only record added. *)
Theorem standard_event_covers_nights (R : Generator) (night : nat) (sunset sunrise : Q)
    (rest : list (Q * Q)) (st : sampler_state R) (k : event_kind) :
  (end_of_start <= night)%nat ->
  nth night (night_counted st) false = false ->
  first_firing (fst (random R (rng st))) = Some k ->
  (List.length rest < ev_length k)%nat ->
  (night + S (List.length rest) <= List.length (night_counted st))%nat ->
  recorded (nights_loop R night ((sunset, sunrise) :: rest) st)
  = recorded st ++ [mkDowntime sunset (sunset + Qnat (ev_length k)) (ev_level k)].
Proof.
  intros Hn Hc Hf Hl Hlen. cbn [nights_loop].
  assert (E : night_body R night sunset sunrise st
              = mkState (snd (random R (rng st)))
                  (set_slice night (night + ev_length k) (night_counted st))
                  (recorded st ++ [mkDowntime sunset (sunset + Qnat (ev_length k))
                                              (ev_level k)])).
  { unfold night_body. destruct (random R (rng st)) as [prob g]. cbn [fst snd] in *.
    rewrite Hc.
    assert (E0 : (night <? end_of_start)%nat = false) by (apply Nat.ltb_ge; exact Hn).
    rewrite E0, standard_night_first_firing, Hf. reflexivity. }
  rewrite E, nights_loop_counted; [reflexivity|].
  intros i Hi. cbn [night_counted]. apply set_slice_marked; lia.
Qed.

Lemma standard_event_covers_nights_witness :
  recorded (nights_loop (tape_generator (fun _ => [])) 380
              [(3809 # 10, 3813 # 10); (3819 # 10, 3823 # 10); (3829 # 10, 3833 # 10)]
              (mkState (R := tape_generator (fun _ => []))
                 [5 # 1000; 1 # 100000; 1 # 100000] (repeat false 390) []))
  = [] ++ [mkDowntime (3809 # 10) ((3809 # 10) + Qnat (ev_length INTERMEDIATE_EVENT))
                      (ev_level INTERMEDIATE_EVENT)].
Proof.
  apply (standard_event_covers_nights (tape_generator (fun _ => [])) 380
           (3809 # 10) (3813 # 10)
           [(3819 # 10, 3823 # 10); (3829 # 10, 3833 # 10)]
           (mkState (R := tape_generator (fun _ => []))
              [5 # 1000; 1 # 100000; 1 # 100000] (repeat false 390) [])
           INTERMEDIATE_EVENT).
  - unfold end_of_start. lia.
  - reflexivity.
  - vm_compute. reflexivity.
  - simpl. lia.
  - simpl. lia.
Defined.

(** ** The downtime status at a time *)

Lemma searchsorted_right_le (a : list Q) (v : Q) :
  (searchsorted_right a v <= List.length a)%nat.
Proof.
  induction a as [|x r IH]; simpl; [lia|].
  destruct (Qle_bool x v); simpl; lia.
Qed.

Lemma searchsorted_right_before (a : list Q) (v : Q) (i : nat) (x : Q) :
  nth_error a i = Some x -> (i < searchsorted_right a v)%nat -> x <= v.
Proof.
  revert i. induction a as [|y r IH]; intros i Hx Hi; [simpl in Hi; lia|].
  simpl in Hi. destruct (Qle_bool y v) eqn:E; [|lia].
  destruct i as [|i].
  - simpl in Hx. injection Hx as <-. apply Qle_bool_iff, E.
  - simpl in Hx. apply (IH i Hx). lia.
Qed.

Lemma searchsorted_right_at (a : list Q) (v : Q) :
  (searchsorted_right a v < List.length a)%nat ->
  exists x, nth_error a (searchsorted_right a v) = Some x /\ v < x.
Proof.
  induction a as [|y r IH]; intro H; [simpl in H; lia|].
  simpl in *. destruct (Qle_bool y v) eqn:E.
  - simpl. apply IH. lia.
  - exists y. split; [reflexivity | apply Qle_bool_false, E].
Qed.

Lemma sorted_nth_le (a : list Q) (i j : nat) (x y : Q) :
  StronglySorted Qle a -> (i <= j)%nat ->
  nth_error a i = Some x -> nth_error a j = Some y -> x <= y.
Proof.
  intro Hs. revert i j. induction Hs as [|z r Hs IH Hz]; intros i j Hij Hx Hy.
  - destruct i; discriminate.
  - destruct i as [|i]; destruct j as [|j]; simpl in *; try lia.
    + injection Hx as <-. injection Hy as <-. lra.
    + injection Hx as <-. rewrite Forall_forall in Hz.
      apply Hz. eapply nth_error_In; eauto.
    + apply (IH i j); [lia | assumption | assumption].
Qed.

(** X10. With the starts and the ends of the downtime array in ascending
    order, [_downtime_status] gives as current a record of the array that
    contains the time (start at or before it, end after it), gives [None]
    only when no record contains the time, and never indexes outside the
    array. *)
Theorem downtime_status_current (d : list downtime_rec) (time : Q) :
  StronglySorted Qle (map dt_start d) ->
  StronglySorted Qle (map dt_end d) ->
  match fst (downtime_status d time) with
  | Current rec => In rec d /\ dt_start rec <= time /\ time < dt_end rec
  | NoCurrent => Forall (fun r => ~ (dt_start r <= time /\ time < dt_end r)) d
  | IndexError => False
  end.
Proof.
  intros Hs He. unfold downtime_status. cbn [fst].
  set (ns := searchsorted_right (map dt_start d) time).
  set (ne := searchsorted_right (map dt_end d) time).
  pose proof (searchsorted_right_le (map dt_start d) time) as Hns. fold ns in Hns.
  rewrite length_map in Hns.
  destruct (ne <? ns)%nat eqn:C.
  - apply Nat.ltb_lt in C.
    destruct (nth_error d ne) as [rec|] eqn:N.
    + split; [eapply nth_error_In; eauto|]. split.
      * apply (searchsorted_right_before (map dt_start d) time ne); [|exact C].
        rewrite nth_error_map, N. reflexivity.
      * destruct (searchsorted_right_at (map dt_end d) time) as [x [Hx Hlt]];
          [fold ne; rewrite length_map; lia|].
        fold ne in Hx. rewrite nth_error_map, N in Hx. simpl in Hx.
        injection Hx as <-. exact Hlt.
    + apply nth_error_None in N. lia.
  - apply Nat.ltb_ge in C. apply Forall_forall. intros r Hr [H1 H2].
    apply In_nth_error in Hr. destruct Hr as [j Hj].
    assert (Hjl : (j < List.length d)%nat) by (apply nth_error_Some; congruence).
    assert (Hje : (ne <= j)%nat).
    { destruct (Nat.le_gt_cases ne j) as [H|H]; [exact H|]. exfalso.
      assert (Hle : dt_end r <= time).
      { apply (searchsorted_right_before (map dt_end d) time j); [|exact H].
        rewrite nth_error_map, Hj. reflexivity. }
      lra. }
    destruct (searchsorted_right_at (map dt_start d) time) as [x [Hx Hlt]];
      [fold ns; rewrite length_map; lia|].
    fold ns in Hx.
    assert (Hxr : x <= dt_start r).
    { apply (sorted_nth_le (map dt_start d) ns j); [exact Hs | lia | exact Hx|].
      rewrite nth_error_map, Hj. reflexivity. }
    lra.
Qed.

Lemma downtime_status_current_witness :
  match fst (downtime_status [mkDowntime 10 13 "Year1 Eng"; mkDowntime 20 21 "minor event"]
                             (41 # 2)) with
  | Current rec =>
      In rec [mkDowntime 10 13 "Year1 Eng"; mkDowntime 20 21 "minor event"] /\
      dt_start rec <= 41 # 2 /\ 41 # 2 < dt_end rec
  | NoCurrent =>
      Forall (fun r => ~ (dt_start r <= 41 # 2 /\ 41 # 2 < dt_end r))
             [mkDowntime 10 13 "Year1 Eng"; mkDowntime 20 21 "minor event"]
  | IndexError => False
  end.
Proof.
  apply (downtime_status_current
           [mkDowntime 10 13 "Year1 Eng"; mkDowntime 20 21 "minor event"] (41 # 2)).
  - simpl. repeat constructor; vm_compute; congruence.
  - simpl. repeat constructor; vm_compute; congruence.
Defined.

(** X11. With the starts in ascending order, the future part that
    [_downtime_status] returns is the tail of the array made of the
    records that start after the time; the records before it start at or
    before the time. *)
Theorem downtime_status_future (d : list downtime_rec) (time : Q) :
  StronglySorted Qle (map dt_start d) ->
  exists past,
    d = past ++ snd (downtime_status d time) /\
    Forall (fun r => dt_start r <= time) past /\
    Forall (fun r => time < dt_start r) (snd (downtime_status d time)).
Proof.
  intro Hs. unfold downtime_status. cbn [snd].
  exists (firstn (searchsorted_right (map dt_start d) time) d).
  split; [symmetry; apply firstn_skipn|].
  induction d as [|r d IH]; [split; constructor|].
  cbn [map] in Hs. inversion Hs as [|? ? Hs' Hr]; subst.
  cbn [map searchsorted_right]. destruct (Qle_bool (dt_start r) time) eqn:E.
  - destruct (IH Hs') as [H1 H2]. cbn [firstn skipn]. split; [|exact H2].
    constructor; [apply Qle_bool_iff, E | exact H1].
  - apply Qle_bool_false in E. cbn [firstn skipn]. split; [constructor|].
    constructor; [exact E|].
    rewrite Forall_forall in *. intros x Hx.
    specialize (Hr (dt_start x) (in_map dt_start d x Hx)). lra.
Qed.

Lemma downtime_status_future_witness :
  exists past,
    [mkDowntime 10 13 "Year1 Eng"; mkDowntime 20 21 "minor event"]
    = past ++ snd (downtime_status
                     [mkDowntime 10 13 "Year1 Eng"; mkDowntime 20 21 "minor event"] 15) /\
    Forall (fun r => dt_start r <= 15) past /\
    Forall (fun r => 15 < dt_start r)
           (snd (downtime_status
                   [mkDowntime 10 13 "Year1 Eng"; mkDowntime 20 21 "minor event"] 15)).
Proof.
  apply (downtime_status_future
           [mkDowntime 10 13 "Year1 Eng"; mkDowntime 20 21 "minor event"] 15).
  simpl. repeat constructor; vm_compute; congruence.
Defined.

(** * Telescope and rotator movement *)

Lemma cap_percent_le (percent : Q) :
  fst (cap_percent percent) <= 125 /\ fst (cap_percent percent) <= percent /\
  (percent <= 125 -> fst (cap_percent percent) = percent).
Proof.
  unfold cap_percent. destruct (Qltb 125 percent) eqn:E; cbn [fst].
  - apply Qltb_true in E. split; [lra|]. split; [lra|]. intro H. exfalso; lra.
  - apply Qltb_false in E. split; [lra|]. split; [lra|]. reflexivity.
Qed.

Lemma Qmin_cases (a b : Q) :
  (a < b /\ Qmin a b == a) \/ (b <= a /\ Qmin a b == b).
Proof. apply Q.min_spec. Qed.

Ltac by_hundred :=
  unfold Qdiv in *; change (/ 100) with (1 # 100) in *.

(** X12. Whatever percentage is asked, the azimuth maximum speed is at
    most 7, the two jerks are at least 1, no value goes beyond what 125
    per cent gives, and the settle time is 3. *)
Theorem tma_movement_bounds (percent : Q) :
  azimuth_maxspeed (fst (tma_movement percent)) <= 7 /\
  1 <= azimuth_jerk (fst (tma_movement percent)) <= 50 /\
  1 <= altitude_jerk (fst (tma_movement percent)) <= 25 /\
  azimuth_accel (fst (tma_movement percent)) <= 25 # 2 /\
  altitude_maxspeed (fst (tma_movement percent)) <= 25 # 4 /\
  altitude_accel (fst (tma_movement percent)) <= 25 # 4 /\
  settle_time (fst (tma_movement percent)) = 3.
Proof.
  unfold tma_movement. pose proof (cap_percent_le percent) as [Hc _].
  destruct (cap_percent percent) as [p printed]. cbn [fst] in *.
  cbn [azimuth_maxspeed azimuth_jerk altitude_jerk azimuth_accel
       altitude_maxspeed altitude_accel settle_time].
  by_hundred.
  destruct (Qmin_cases (10 * (p * (1 # 100))) 7) as [[? ?]|[? ?]];
  destruct (Qmax_cases 1 (40 * (p * (1 # 100)))) as [[? ?]|[? ?]];
  destruct (Qmax_cases 1 (20 * (p * (1 # 100)))) as [[? ?]|[? ?]];
  repeat split; try reflexivity; lra.
Qed.

(** X13. The rotator values never go beyond what 125 per cent gives:
    maximum speed 4.375, acceleration 1.25, jerk 5. *)
Theorem rotator_movement_bounds (percent : Q) :
  maxspeed (fst (rotator_movement percent)) <= 4375 # 1000 /\
  accel (fst (rotator_movement percent)) <= 125 # 100 /\
  jerk (fst (rotator_movement percent)) <= 5.
Proof.
  unfold rotator_movement. pose proof (cap_percent_le percent) as [Hc _].
  destruct (cap_percent percent) as [p printed]. cbn [fst] in *.
  cbn [maxspeed accel jerk]. by_hundred. repeat split; lra.
Qed.

(** X14. A percentage above 125 gives exactly the dictionaries of 125 per
    cent, and the message is printed. *)
Theorem movement_capped (percent : Q) :
  125 < percent ->
  tma_movement percent
  = (fst (tma_movement 125), ["Cannot exceed 125 percent, by requirements."%string]) /\
  rotator_movement percent
  = (fst (rotator_movement 125), ["Cannot exceed 125 percent, by requirements."%string]).
Proof.
  intro H. unfold tma_movement, rotator_movement.
  assert (E : cap_percent percent
              = (125, ["Cannot exceed 125 percent, by requirements."%string])).
  { unfold cap_percent. apply Qltb_true in H. rewrite H. reflexivity. }
  rewrite E. split; reflexivity.
Qed.

Lemma movement_capped_witness :
  tma_movement 200
  = (fst (tma_movement 125), ["Cannot exceed 125 percent, by requirements."%string]) /\
  rotator_movement 200
  = (fst (rotator_movement 125), ["Cannot exceed 125 percent, by requirements."%string]).
Proof.
  apply (movement_capped 200). vm_compute. reflexivity.
Defined.

(** X15. A higher percentage never gives a lower value, for any key of
    either dictionary. *)
Theorem movement_monotone (p q : Q) :
  p <= q ->
  azimuth_maxspeed (fst (tma_movement p)) <= azimuth_maxspeed (fst (tma_movement q)) /\
  azimuth_accel (fst (tma_movement p)) <= azimuth_accel (fst (tma_movement q)) /\
  azimuth_jerk (fst (tma_movement p)) <= azimuth_jerk (fst (tma_movement q)) /\
  altitude_maxspeed (fst (tma_movement p)) <= altitude_maxspeed (fst (tma_movement q)) /\
  altitude_accel (fst (tma_movement p)) <= altitude_accel (fst (tma_movement q)) /\
  altitude_jerk (fst (tma_movement p)) <= altitude_jerk (fst (tma_movement q)) /\
  maxspeed (fst (rotator_movement p)) <= maxspeed (fst (rotator_movement q)) /\
  accel (fst (rotator_movement p)) <= accel (fst (rotator_movement q)) /\
  jerk (fst (rotator_movement p)) <= jerk (fst (rotator_movement q)).
Proof.
  intro H. unfold tma_movement, rotator_movement.
  assert (Hc : fst (cap_percent p) <= fst (cap_percent q)).
  { unfold cap_percent. destruct (Qltb 125 p) eqn:Ep; destruct (Qltb 125 q) eqn:Eq;
      cbn [fst]; try apply Qltb_true in Ep; try apply Qltb_true in Eq;
      try apply Qltb_false in Ep; try apply Qltb_false in Eq; lra. }
  destruct (cap_percent p) as [p' printed]. destruct (cap_percent q) as [q' printed'].
  cbn [fst] in *.
  cbn [azimuth_maxspeed azimuth_jerk altitude_jerk azimuth_accel
       altitude_maxspeed altitude_accel maxspeed accel jerk].
  by_hundred.
  destruct (Qmin_cases (10 * (p' * (1 # 100))) 7) as [[? ?]|[? ?]];
  destruct (Qmin_cases (10 * (q' * (1 # 100))) 7) as [[? ?]|[? ?]];
  destruct (Qmax_cases 1 (40 * (p' * (1 # 100)))) as [[? ?]|[? ?]];
  destruct (Qmax_cases 1 (40 * (q' * (1 # 100)))) as [[? ?]|[? ?]];
  destruct (Qmax_cases 1 (20 * (p' * (1 # 100)))) as [[? ?]|[? ?]];
  destruct (Qmax_cases 1 (20 * (q' * (1 # 100)))) as [[? ?]|[? ?]];
  repeat split; lra.
Qed.

Lemma movement_monotone_witness :
  azimuth_maxspeed (fst (tma_movement 10)) <= azimuth_maxspeed (fst (tma_movement 70)) /\
  azimuth_accel (fst (tma_movement 10)) <= azimuth_accel (fst (tma_movement 70)) /\
  azimuth_jerk (fst (tma_movement 10)) <= azimuth_jerk (fst (tma_movement 70)) /\
  altitude_maxspeed (fst (tma_movement 10)) <= altitude_maxspeed (fst (tma_movement 70)) /\
  altitude_accel (fst (tma_movement 10)) <= altitude_accel (fst (tma_movement 70)) /\
  altitude_jerk (fst (tma_movement 10)) <= altitude_jerk (fst (tma_movement 70)) /\
  maxspeed (fst (rotator_movement 10)) <= maxspeed (fst (rotator_movement 70)) /\
  accel (fst (rotator_movement 10)) <= accel (fst (rotator_movement 70)) /\
  jerk (fst (rotator_movement 10)) <= jerk (fst (rotator_movement 70)).
Proof.
  apply (movement_monotone 10 70). vm_compute. congruence.
Defined.

(** * The season basis function *)

Lemma fold_Qmax_ge (l : list Q) (x : Q) :
  x <= fold_left Qmax l x /\ Forall (fun y => y <= fold_left Qmax l x) l.
Proof.
  revert x. induction l as [|a l IH]; intro x; simpl.
  - split; [lra | constructor].
  - destruct (IH (Qmax x a)) as [H1 H2].
    pose proof (Qmax_ge_l x a). pose proof (Qmax_ge_r x a).
    split; [lra|]. constructor; [lra | exact H2].
Qed.

Lemma fold_Qmax_In (l : list Q) (x : Q) :
  fold_left Qmax l x = x \/ In (fold_left Qmax l x) l.
Proof.
  revert x. induction l as [|a l IH]; intro x; simpl.
  - left; reflexivity.
  - destruct (IH (Qmax x a)) as [H|H].
    + rewrite H. destruct (Qmax_either x a) as [-> | ->]; auto.
    + right; right; exact H.
Qed.

Lemma np_max_ge (l : list Q) (m : Q) :
  np_max l = Some m -> Forall (fun y => y <= m) l.
Proof.
  destruct l as [|x r]; simpl; intro H; [discriminate|].
  injection H as <-. destruct (fold_Qmax_ge r x). constructor; assumption.
Qed.

Lemma np_max_In (l : list Q) (m : Q) : np_max l = Some m -> In m l.
Proof.
  destruct l as [|x r]; simpl; intro H; [discriminate|].
  injection H as <-. destruct (fold_Qmax_In r x) as [E|E].
  - left; symmetry; exact E.
  - right; exact E.
Qed.

Lemma in_season_loop_spec (seasons : list (list Q)) (mjd : Q) (result : bool) :
  Forall (fun season_range => season_range <> []) seasons ->
  exists b,
    in_season_loop seasons mjd result = Returned b /\
    (b = true <->
     result = true \/
     exists season_range lo hi,
       In season_range seasons /\ np_min season_range = Some lo /\
       np_max season_range = Some hi /\ lo <= mjd /\ mjd <= hi).
Proof.
  revert result. induction seasons as [|sr rest IH]; intros result Hne.
  - exists result. split; [reflexivity|]. split; [auto|].
    intros [H|[? [? [? [[] _]]]]]. exact H.
  - inversion Hne as [|? ? Hsr Hrest]; subst.
    destruct sr as [|x r]; [congruence|].
    cbn [in_season_loop].
    destruct (np_min (x :: r)) as [lo|] eqn:Elo; [|discriminate].
    destruct (np_max (x :: r)) as [hi|] eqn:Ehi; [|discriminate].
    destruct (IH (if Qle_bool lo mjd && Qle_bool mjd hi then true else result) Hrest)
      as [b [Hb Hiff]].
    exists b. split; [exact Hb|]. rewrite Hiff. split.
    + intros [H|[s [l [h [Hin H]]]]].
      * destruct (Qle_bool lo mjd && Qle_bool mjd hi) eqn:C; [|left; exact H].
        apply andb_true_iff in C. destruct C as [C1 C2].
        apply Qle_bool_iff in C1. apply Qle_bool_iff in C2.
        right. exists (x :: r), lo, hi. repeat split; auto. left; reflexivity.
      * right. exists s, l, h. split; [right; exact Hin | exact H].
    + intros [H|[s [l [h [[Hin|Hin] [H1 [H2 [H3 H4]]]]]]]].
      * left. rewrite H. destruct (Qle_bool lo mjd && Qle_bool mjd hi); reflexivity.
      * subst s. rewrite Elo in H1. rewrite Ehi in H2.
        injection H1 as <-. injection H2 as <-.
        apply Qle_bool_iff in H3. apply Qle_bool_iff in H4.
        left. rewrite H3, H4. reflexivity.
      * right. exists s, l, h. repeat split; assumption.
Qed.

(** X16. When no season range is empty, [check_feasibility] returns, and
    it returns [True] exactly when the date lies between the smallest and
    the largest entry of at least one season range, both included. *)
Theorem check_feasibility_in_season (seasons : list (list Q)) (mjd : Q) :
  Forall (fun season_range => season_range <> []) seasons ->
  exists b,
    check_feasibility seasons mjd = Returned b /\
    (b = true <->
     exists season_range,
       In season_range seasons /\
       (exists x, In x season_range /\ x <= mjd) /\
       (exists y, In y season_range /\ mjd <= y)).
Proof.
  intro Hne. destruct (in_season_loop_spec seasons mjd false Hne) as [b [Hb Hiff]].
  exists b. split; [exact Hb|]. rewrite Hiff. split.
  - intros [H|[s [lo [hi [Hin [H1 [H2 [H3 H4]]]]]]]]; [discriminate|].
    exists s. split; [exact Hin|]. split.
    + exists lo. split; [apply np_min_In; exact H1 | exact H3].
    + exists hi. split; [apply np_max_In; exact H2 | exact H4].
  - intros [s [Hin [[x [Hx Hxm]] [y [Hy Hym]]]]]. right.
    rewrite Forall_forall in Hne. specialize (Hne s Hin).
    destruct s as [|a r]; [congruence|].
    destruct (np_min (a :: r)) as [lo|] eqn:Elo; [|discriminate].
    destruct (np_max (a :: r)) as [hi|] eqn:Ehi; [|discriminate].
    exists (a :: r), lo, hi. repeat split; auto.
    + pose proof (np_min_le _ _ Elo) as Hl. rewrite Forall_forall in Hl.
      specialize (Hl x Hx). lra.
    + pose proof (np_max_ge _ _ Ehi) as Hh. rewrite Forall_forall in Hh.
      specialize (Hh y Hy). lra.
Qed.

Lemma check_feasibility_in_season_witness :
  exists b,
    check_feasibility [[10; 20]; [40; 30]] 35 = Returned b /\
    (b = true <->
     exists season_range,
       In season_range [[10; 20]; [40; 30]] /\
       (exists x, In x season_range /\ x <= 35) /\
       (exists y, In y season_range /\ 35 <= y)).
Proof.
  apply (check_feasibility_in_season [[10; 20]; [40; 30]] 35).
  repeat constructor; discriminate.
Defined.

(** X17. An empty season range anywhere in the list makes
    [check_feasibility] raise the [ValueError] of [np.min], also when an
    earlier range already contains the date. *)
Theorem check_feasibility_empty_range (seasons : list (list Q)) (mjd : Q) :
  In [] seasons -> check_feasibility seasons mjd = Raised ValueError.
Proof.
  unfold check_feasibility. generalize false.
  induction seasons as [|sr rest IH]; intros result Hin; [destruct Hin|].
  destruct Hin as [->|Hin]; [reflexivity|].
  cbn [in_season_loop].
  destruct (np_min sr); [|reflexivity]. destruct (np_max sr); [|reflexivity].
  apply IH, Hin.
Qed.

Lemma check_feasibility_empty_range_witness :
  check_feasibility [[10; 20]; []] 15 = Raised ValueError.
Proof.
  apply (check_feasibility_empty_range [[10; 20]; []] 15). right. left. reflexivity.
Defined.

(** * The seasons of [roman_info] *)

Ltac season_cases H :=
  repeat (destruct H as [H|H]; [subst|]); [..|destruct H].

(** X18. For every date, the on-season check and the off-season check of
    the seasons of [roman_info] both return, and never both with [True]:
    no date is in an on-season and in an off-season. *)
Theorem roman_seasons_exclusive (mjd : Q) :
  exists on off,
    check_feasibility (seasons_on roman_info) mjd = Returned on /\
    check_feasibility (seasons_off roman_info) mjd = Returned off /\
    on && off = false.
Proof.
  assert (Hon : Forall (fun r : list Q => r <> []) (seasons_on roman_info))
    by (vm_compute; repeat constructor; discriminate).
  assert (Hoff : Forall (fun r : list Q => r <> []) (seasons_off roman_info))
    by (vm_compute; repeat constructor; discriminate).
  destruct (in_season_loop_spec _ mjd false Hon) as [on [Eon Ion]].
  destruct (in_season_loop_spec _ mjd false Hoff) as [off [Eoff Ioff]].
  exists on, off. split; [exact Eon|]. split; [exact Eoff|].
  destruct on; [|reflexivity]. destruct off; [|reflexivity]. exfalso.
  destruct (proj1 Ion eq_refl) as [H|[s [lo [hi [Hs [H1 [H2 [H3 H4]]]]]]]];
    [discriminate|].
  destruct (proj1 Ioff eq_refl) as [H|[s' [lo' [hi' [Hs' [H1' [H2' [H3' H4']]]]]]]];
    [discriminate|].
  vm_compute in Hs. vm_compute in Hs'.
  season_cases Hs; vm_compute in H1; vm_compute in H2;
    injection H1 as <-; injection H2 as <-;
    season_cases Hs'; vm_compute in H1'; vm_compute in H2';
    injection H1' as <-; injection H2' as <-; lra.
Qed.

(** * The sampler and the builder together *)

Lemma first_firing_length (p : Q) (k : event_kind) :
  first_firing p = Some k -> 0 < Qnat (ev_length k).
Proof.
  intro H. unfold first_firing in H. apply find_some in H. destruct H as [H _].
  unfold severities in H. simpl in H.
  destruct H as [<-|[<-|[<-|[<-|[]]]]]; reflexivity.
Qed.

Lemma night_body_valid (R : Generator) (night : nat) (sunset sunrise : Q)
    (st : sampler_state R) :
  unit_draws R -> sunset < sunrise ->
  Forall (fun r => dt_start r < dt_end r) (recorded st) ->
  Forall (fun r => dt_start r < dt_end r) (recorded (night_body R night sunset sunrise st)).
Proof.
  intros Hu Hw Hv. unfold night_body. destruct (random R (rng st)) as [prob g].
  destruct (nth night (night_counted st) false); [exact Hv|].
  destruct (night <? end_of_start)%nat.
  - unfold year1_night. destruct (Qle_bool prob (nightly_threshold night)); [|exact Hv].
    pose proof (year1_event_shape R sunset sunrise g Hu) as H. cbv zeta in H.
    destruct H as [_ Hd].
    destruct (year1_event R sunset sunrise g) as [ev g']. cbn [fst recorded] in *.
    apply Forall_app. split; [exact Hv|]. constructor; [|constructor].
    destruct Hd as [[_ [Hd1 Hd2]]|[_ [_ Hd]]].
    + rewrite Hd1, Hd2. exact Hw.
    + exact Hd.
  - rewrite standard_night_first_firing.
    destruct (first_firing prob) as [k|] eqn:F; [|exact Hv].
    unfold fire. cbn [recorded].
    apply Forall_app. split; [exact Hv|]. constructor; [|constructor].
    pose proof (first_firing_length prob k F). cbn [dt_start dt_end]. lra.
Qed.

Lemma nights_loop_valid (R : Generator) (windows : list (Q * Q)) (night : nat)
    (st : sampler_state R) :
  unit_draws R ->
  Forall (fun w => fst w < snd w) windows ->
  Forall (fun r => dt_start r < dt_end r) (recorded st) ->
  Forall (fun r => dt_start r < dt_end r) (recorded (nights_loop R night windows st)).
Proof.
  intro Hu. revert night st.
  induction windows as [|[ss sr] rest IH]; intros night st Hw Hv; [exact Hv|].
  inversion Hw as [|? ? Hw1 Hw']; subst. cbn [nights_loop].
  apply IH; [exact Hw'|]. apply night_body_valid; assumption.
Qed.

(** X19. When every night has its sunset before its sunrise, every
    record of the sampler, of either kind and for any number of nights,
    has its start before its end. *)
Theorem sampler_records_valid (R : Generator) (sets rises : list Q) (s : Z) :
  unit_draws R ->
  Forall (fun w => fst w < snd w) (combine sets rises) ->
  exists self d,
    init R sets rises s = Returned self /\ call self = Some d /\
    Forall (fun r => dt_start r < dt_end r) d.
Proof.
  intros Hu Hw. eexists. eexists. split; [reflexivity|]. split; [reflexivity|].
  cbn [make_data sunsets sunrises seed].
  apply nights_loop_valid; [exact Hu | exact Hw | constructor].
Qed.

Lemma sampler_records_valid_witness :
  exists self d,
    init coin_generator [0; 1; 2; 3] [1 # 2; 3 # 2; 5 # 2; 7 # 2] 42 = Returned self /\
    call self = Some d /\
    Forall (fun r => dt_start r < dt_end r) d.
Proof.
  apply (sampler_records_valid coin_generator [0; 1; 2; 3]
           [1 # 2; 3 # 2; 5 # 2; 7 # 2] 42).
  - exact coin_unit_draws.
  - repeat constructor.
Defined.

Lemma year1_windows_valid (alm : list almanac_row) :
  Forall (fun r => sun_n12_setting r < sun_n12_rising r) alm ->
  Forall (fun w => fst w < snd w)
         (combine (fst (year1_windows alm)) (snd (year1_windows alm))).
Proof.
  intro H. unfold year1_windows. cbn [fst snd].
  assert (Hf : Forall (fun r => sun_n12_setting r < sun_n12_rising r) (year1_sunsets alm)).
  { rewrite Forall_forall in *. intros r Hr. apply H.
    unfold year1_sunsets in Hr. apply filter_In in Hr. tauto. }
  induction Hf as [|r l Hr Hl IH]; [constructor|].
  simpl. constructor; [exact Hr | exact IH].
Qed.

Lemma sampler_valid_aux (R : Generator) (alm : list almanac_row) :
  unit_draws R ->
  Forall (fun r => sun_n12_setting r < sun_n12_rising r) alm ->
  exists self d,
    init R (fst (year1_windows alm)) (snd (year1_windows alm)) 43 = Returned self /\
    call self = Some d /\
    Forall (fun r => dt_start r < dt_end r) d.
Proof.
  intros Hu Hw. eexists. eexists. split; [reflexivity|]. split; [reflexivity|].
  cbn [make_data sunsets sunrises seed].
  apply nights_loop_valid; [exact Hu | apply year1_windows_valid, Hw | constructor].
Qed.

(** X20. With the twelve degree sunset before the sunrise in every almanac
    row, and start before end in every record of the two site models,
    a calendar [new_downtimes] returns covers exactly the time covered
    by the sampler's records and the records of the two site models; and
    [new_downtimes] ends, with a calendar or with [ValueError]. *)
Theorem new_downtimes_covers_sources (R : Generator) (alm : list almanac_row)
    (regular sched : list downtime_rec) (t : Q) :
  unit_draws R ->
  Forall (fun r => sun_n12_setting r < sun_n12_rising r) alm ->
  Forall (fun r => dt_start r < dt_end r) regular ->
  Forall (fun r => dt_start r < dt_end r) sched ->
  exists self unscheduled,
    init R (fst (year1_windows alm)) (snd (year1_windows alm)) 43 = Returned self /\
    call self = Some unscheduled /\
    match new_downtimes R alm regular sched with
    | Some (Returned cal) =>
        covered cal t <-> covered (collect unscheduled regular sched) t
    | Some (Raised e) => e = ValueError
    | None => False
    end.
Proof.
  intros Hu Halm Hreg Hsched.
  destruct (new_downtimes_merge R alm regular sched) as [self [u [Hi [Hc Hn]]]].
  exists self, u. split; [exact Hi|]. split; [exact Hc|]. rewrite Hn.
  destruct (sampler_valid_aux R alm Hu Halm) as [self' [u' [Hi' [Hc' Hv]]]].
  rewrite Hi in Hi'. injection Hi' as <-. rewrite Hc in Hc'. injection Hc' as <-.
  assert (Hvalid : Forall valid (collect u regular sched)).
  { unfold collect. rewrite !Forall_app. repeat split; apply Forall_map;
      (eapply Forall_impl; [|eassumption]); intros r Hr; exact Hr. }
  destruct (merge_downtimes_run (collect u regular sched)) as [k [r [Hr [_ Hm]]]].
  rewrite Hm. destruct r as [cal|e].
  - rewrite <- (np_sort_covered (collect u regular sched)).
    exact (while_run_covered _ _ _ Hr (np_sort_strong _) (np_sort_valid _ Hvalid)
             cal eq_refl t).
  - exact (while_run_sorted _ _ _ Hr (np_sort_strong _)).
Qed.

Lemma new_downtimes_covers_sources_witness :
  exists self unscheduled,
    init coin_generator (fst (year1_windows (almanac_of_nights 6)))
         (snd (year1_windows (almanac_of_nights 6))) 43 = Returned self /\
    call self = Some unscheduled /\
    match new_downtimes coin_generator (almanac_of_nights 6)
            [mkDowntime 400 401 "minor event"] [mkDowntime 500 507 "maintenance"] with
    | Some (Returned cal) =>
        covered cal 2 <->
        covered (collect unscheduled [mkDowntime 400 401 "minor event"]
                   [mkDowntime 500 507 "maintenance"]) 2
    | Some (Raised e) => e = ValueError
    | None => False
    end.
Proof.
  apply (new_downtimes_covers_sources coin_generator (almanac_of_nights 6)
           [mkDowntime 400 401 "minor event"] [mkDowntime 500 507 "maintenance"] 2).
  - exact coin_unit_draws.
  - simpl. repeat constructor.
  - repeat constructor.
  - repeat constructor.
Defined.

(** X21. For every almanac and every pair of record lists from the site
    models, [new_downtimes] ends either with the [ValueError] of [np.min]
    or with a calendar of at least two intervals, sorted by start, in
    which each interval ends no later than the next one starts. *)
Theorem new_downtimes_outcome (R : Generator) (alm : list almanac_row)
    (regular sched : list downtime_rec) :
  exists r,
    new_downtimes R alm regular sched = Some r /\
    match r with
    | Returned cal =>
        sorted_by_start cal /\ no_overlap cal /\ (2 <= List.length cal)%nat
    | Raised e => e = ValueError
    end.
Proof.
  destruct (new_downtimes_merge R alm regular sched) as [self [u [_ [_ Hn]]]].
  rewrite Hn.
  destruct (merge_downtimes_run (collect u regular sched)) as [k [r [Hr [_ Hm]]]].
  exists r. split; [exact Hm|].
  pose proof (while_run_sorted _ _ _ Hr (np_sort_strong _)) as Hs.
  destruct r as [cal|e]; [|exact Hs].
  destruct Hs as [H1 H2]. repeat split; try assumption.
  destruct (while_run_returned _ _ _ Hr cal eq_refl) as [[m [Hmin _]] _].
  pose proof (diff_length cal) as Hd.
  destruct (diff cal) as [|x l]; [discriminate|]. simpl in Hd. lia.
Qed.
